(** * athu — Gemini API proxy (src/worker.js)

    A shallow embedding of the Cloudflare Worker that proxies civic
    queries to the Gemini API, and the properties its specification
    states about it: the per-IP rate limiter, the CORS headers, the body
    validation, the fence stripping and the error surfacing.

    Conventions of the embedding.
    - A JavaScript string is the list of its UTF-16 code units
      ([list N]); [length], [take] and the whitespace class then mean
      what [.length], [.slice] and [\s] / [.trim()] mean in the source.
    - A JavaScript number that holds a timestamp or a counter is an
      integer far below 2^53, where double arithmetic is exact: it is a
      [Z].  A number that comes out of [JSON.parse] is a binary64
      [float].
    - [JSON.parse], [JSON.stringify] and the global [fetch] are builtins
      of the runtime, not code of the worker: the handler is a function
      of them (section variables). *)

From Stdlib Require Import ZArith NArith List Ascii String Floats Lia.
From stdpp Require Import base option list gmap.

Set Warnings "-register-all,-inexact-float".
Local Open Scope Z_scope.

(** ** JavaScript strings *)

Module JsString.

(** The code units of a UTF-8 byte sequence; used to write the string
    literals of the source, which is a UTF-8 file. *)
Fixpoint utf8_decode (fuel : nat) (bs : list N) : list N :=
  match fuel with
  | O => []
  | S fuel' =>
      match bs with
      | [] => []
      | b0 :: r0 =>
          if (b0 <? 128)%N then b0 :: utf8_decode fuel' r0
          else if (b0 <? 224)%N then
            match r0 with
            | b1 :: r1 =>
                ((b0 mod 32) * 64 + b1 mod 64)%N :: utf8_decode fuel' r1
            | _ => [65533%N]
            end
          else if (b0 <? 240)%N then
            match r0 with
            | b1 :: b2 :: r2 =>
                ((b0 mod 16) * 4096 + (b1 mod 64) * 64 + b2 mod 64)%N
                  :: utf8_decode fuel' r2
            | _ => [65533%N]
            end
          else
            match r0 with
            | b1 :: b2 :: b3 :: r3 =>
                let cp := ((b0 mod 8) * 262144 + (b1 mod 64) * 4096
                           + (b2 mod 64) * 64 + b3 mod 64)%N in
                let v := (cp - 65536)%N in
                (55296 + v / 1024)%N :: (56320 + v mod 1024)%N
                  :: utf8_decode fuel' r3
            | _ => [65533%N]
            end
      end
  end.

(** A string literal of the source. *)
Definition js (s : string) : list N :=
  let bs := map N_of_ascii (list_ascii_of_string s) in
  utf8_decode (List.length bs) bs.

(** The same, for a literal that contains double quotes: they are
    written as single quotes (the literals concerned have none). *)
Definition jsq (s : string) : list N :=
  map (fun c => if (c =? 39)%N then 34%N else c) (js s).

(** [WhiteSpace] and [LineTerminator] of ECMAScript: the class of
    [\s] in a regular expression and what [String.prototype.trim]
    removes. *)
Definition is_ws (c : N) : bool :=
  ((9 <=? c) && (c <=? 13)             (* TAB LF VT FF CR *)
   || (c =? 32) || (c =? 160)          (* SP NBSP *)
   || (c =? 5760)                      (* U+1680 *)
   || ((8192 <=? c) && (c <=? 8202))   (* U+2000 .. U+200A *)
   || (c =? 8232) || (c =? 8233)       (* LS PS *)
   || (c =? 8239) || (c =? 8287)       (* U+202F U+205F *)
   || (c =? 12288) || (c =? 65279))%N. (* U+3000 U+FEFF *)

Fixpoint trimStart (s : list N) : list N :=
  match s with
  | c :: s' => if is_ws c then trimStart s' else s
  | [] => []
  end.

Definition trimEnd (s : list N) : list N := reverse (trimStart (reverse s)).

(** [s.trim()] *)
Definition trim (s : list N) : list N := trimEnd (trimStart s).

(** [s.slice(0, n)] *)
Definition slice0 (n : nat) (s : list N) : list N := take n s.

(** ["x".repeat(n)] for a one-unit string *)
Definition repeat1 (c : N) (n : nat) : list N := replicate n c.

End JsString.
Import JsString.

#[global] Arguments js : simpl never.
#[global] Arguments jsq : simpl never.
#[global] Arguments trim : simpl never.
#[global] Arguments slice0 : simpl never.

(** ** JavaScript values and abrupt completion *)

(** The values [JSON.parse] produces, and [undefined], which reading a
    missing property produces.  An object keeps its own properties in
    insertion order, each key once. *)
Inductive value : Type :=
| VUndefined
| VNull
| VBool (b : bool)
| VNum (f : float)
| VStr (s : list N)
| VArr (elems : list value)
| VObj (props : list (list N * value)).

(** The exceptions the handler can meet. *)
Inductive exn : Type :=
| TypeError
| SyntaxError
| NetworkFailure
| Error (message : list N).

(** A computation either completes normally or throws. *)
Inductive completion (A : Type) : Type :=
| Normal (a : A)
| Throw (e : exn).
Arguments Normal {A} a.
Arguments Throw {A} e.

#[global] Instance completion_ret : MRet completion := @Normal.

#[global] Instance completion_bind : MBind completion := fun A B k c =>
  match c with
  | Normal a => k a
  | Throw e => Throw e
  end.

Module Js.

(** [ToBoolean] *)
Definition truthy (v : value) : bool :=
  match v with
  | VUndefined | VNull => false
  | VBool b => b
  | VNum f => negb (PrimFloat.eqb f 0 || PrimFloat.is_nan f)
  | VStr s => negb (bool_decide (s = []))
  | VArr _ | VObj _ => true
  end.

(** [a || b] *)
Definition or (a b : value) : value := if truthy a then a else b.

(** [header || literal], for the result of [headers.get], which is
    [null] or a string. *)
Definition or_str (a : option (list N)) (b : list N) : list N :=
  match a with
  | Some s => if bool_decide (s = []) then b else s
  | None => b
  end.

Fixpoint own_prop (k : list N) (props : list (list N * value)) : value :=
  match props with
  | [] => VUndefined
  | (k', v) :: rest => if bool_decide (k' = k) then v else own_prop k rest
  end.

(** [v.name], for the names the handler reads ([query], [candidates],
    [content], [parts], [text]); none of them is defined on a builtin
    prototype, so only an object's own property can answer. *)
Definition get (v : value) (name : list N) : completion value :=
  match v with
  | VUndefined | VNull => Throw TypeError
  | VObj props => Normal (own_prop name props)
  | _ => Normal VUndefined
  end.

(** [v[0]] *)
Definition get0 (v : value) : completion value :=
  match v with
  | VUndefined | VNull => Throw TypeError
  | VArr elems => Normal (default VUndefined (head elems))
  | VStr s => Normal (default VUndefined ((fun c => VStr [c]) <$> head s))
  | VObj props => Normal (own_prop (js "0") props)
  | _ => Normal VUndefined
  end.

(** [v.trim()]: only a string has a callable [trim]. *)
Definition call_trim (v : value) : completion (list N) :=
  match v with
  | VStr s => Normal (trim s)
  | _ => Throw TypeError
  end.

End Js.

(** ** Regular expressions

    The three patterns of the source are sequences of the atoms below;
    [exec_from] is the backtracking matcher of ECMAScript restricted to
    them: leftmost start, greedy star. *)

Module RegExp.

Inductive atom : Type :=
| Bol                 (* ^ *)
| Eol                 (* $ *)
| Chr (c : N)         (* a literal character *)
| StarWs.             (* \s* *)

Record regexp := { source : list atom; ignoreCase : bool }.

(** [Canonicalize] without the [u] flag, as far as it can relate a
    character to an ASCII one: a non-ASCII character never
    canonicalizes to an ASCII character. *)
Definition canonicalize (c : N) : N :=
  if ((97 <=? c) && (c <=? 122))%N then (c - 32)%N else c.

Definition same_char (ic : bool) (p c : N) : bool :=
  if ic then (canonicalize p =? canonicalize c)%N else (p =? c)%N.

(** Greedy [\s*] followed by the continuation [k]. *)
Fixpoint star_ws (k : bool -> list N -> option (list N))
         (at0 : bool) (s : list N) : option (list N) :=
  match s with
  | c :: s' =>
      if is_ws c then
        match star_ws k false s' with
        | Some r => Some r
        | None => k at0 s
        end
      else k at0 s
  | [] => k at0 []
  end.

(** Match the atoms at the current position ([at0] tells whether it is
    index 0); the result is the input left after the match. *)
Fixpoint match_here (ic : bool) (p : list atom) (at0 : bool) (s : list N)
  : option (list N) :=
  match p with
  | [] => Some s
  | Bol :: p' => if at0 then match_here ic p' at0 s else None
  | Eol :: p' => match s with [] => match_here ic p' at0 s | _ => None end
  | Chr c :: p' =>
      match s with
      | x :: s' => if same_char ic c x then match_here ic p' false s' else None
      | [] => None
      end
  | StarWs :: p' => star_ws (match_here ic p') at0 s
  end.

(** The leftmost match: the input before it and the input after it. *)
Fixpoint exec_from (r : regexp) (at0 : bool) (s : list N)
  : option (list N * list N) :=
  match match_here (ignoreCase r) (source r) at0 s with
  | Some rest => Some ([], rest)
  | None =>
      match s with
      | [] => None
      | c :: s' =>
          match exec_from r false s' with
          | Some (pre, rest) => Some (c :: pre, rest)
          | None => None
          end
      end
  end.

(** [s.replace(r, '')] for a pattern without the [g] flag. *)
Definition replace_empty (r : regexp) (s : list N) : list N :=
  match exec_from r true s with
  | Some (pre, rest) => pre ++ rest
  | None => s
  end.

Definition lit (s : list N) : list atom := map Chr s.

End RegExp.

#[global] Arguments RegExp.same_char : simpl never.

(** ** Rate limiter: max 20 requests/minute per IP *)

Record Entry := { count : Z; start : Z }.

#[global] Instance Entry_inhabited : Inhabited Entry :=
  populate {| count := 0; start := 0 |}.

(** The entry objects live in a heap and [rateLimitMap] maps a key to a
    reference: [isRateLimited] mutates the object it got from the map
    in place. *)
Record store := { heap : list Entry; rateLimitMap : gmap (list N) nat }.

Definition empty_store : store := {| heap := []; rateLimitMap := ∅ |}.

Definition set_count (c : Z) (e : Entry) : Entry :=
  {| count := c; start := start e |}.

Definition isRateLimited (now : Z) (ip : list N) (σ : store) : bool * store :=
  let win := 60000 in   (* 1 minute window *)
  let max := 20 in      (* max requests per window *)
  (* const entry = rateLimitMap.get(ip) || { count: 0, start: now }; *)
  let '(entry, h) :=
    match rateLimitMap σ !! ip with
    | Some ref => (ref, heap σ)
    | None => (length (heap σ), heap σ ++ [ {| count := 0; start := now |} ])
    end in
  (* if (now - entry.start > win) { entry.count = 0; entry.start = now; } *)
  let h :=
    if now - start (h !!! entry) >? win
    then <[entry := {| count := 0; start := now |}]> h
    else h in
  (* entry.count++; *)
  let h := <[entry := set_count (count (h !!! entry) + 1) (h !!! entry)]> h in
  (* rateLimitMap.set(ip, entry); *)
  let table := <[ip := entry]> (rateLimitMap σ) in
  (* return entry.count > max; *)
  (count (h !!! entry) >? max, {| heap := h; rateLimitMap := table |}).

(** The window record of a key, read through the table. *)
Definition window_of (σ : store) (ip : list N) : option Entry :=
  ref ← rateLimitMap σ !! ip; heap σ !! ref.

(** ** Constants *)

Definition GEMINI_MODEL : list N := js "gemini-2.0-flash".

Definition GEMINI_ENDPOINT : list N :=
  js "https://generativelanguage.googleapis.com/v1beta/models/"
    ++ GEMINI_MODEL ++ js ":generateContent".

Definition ALLOWED_ORIGINS : list (list N) :=
  [ js "https://athumoz.github.io" ].

Definition SYSTEM_INSTRUCTION : list N := trim (jsq "
Tu és athu, um assistente de inteligência cívica especializado em governação de Moçambique.
Responde APENAS em JSON válido, sem texto fora do JSON e sem blocos de código markdown.
A estrutura deve ser exactamente:
{
  'chips': ['etiqueta1', 'etiqueta2', 'etiqueta3'],
  'summary': 'Síntese clara e factual com <strong>valores importantes</strong> em negrito HTML',
  'facts': [
    {'key': 'CATEGORIA', 'value': 'Facto específico'},
    {'key': 'CATEGORIA', 'value': 'Facto específico'},
    {'key': 'CATEGORIA', 'value': 'Facto específico'}
  ],
  'sources': ['Fonte 1', 'Fonte 2', 'Fonte 3'],
  'confidence': 75,
  'confidence_label': 'Alta'
}
Regras:
- chips: 3-4 etiquetas curtas de fontes ou categorias relevantes (ex: 'OE 2026', 'MINED', 'Boletim da República')
- summary: 2-4 frases factuais com dados concretos quando disponíveis; usa <strong> para destacar números ou termos-chave
- facts: 3-4 pares chave-valor com factos estruturados e concisos
- sources: 2-4 fontes primárias relevantes (documentos, ministérios, portais oficiais moçambicanos)
- confidence: número inteiro entre 40-95
- confidence_label: 'Moderada', 'Alta' ou 'Muito Alta' conforme o valor
- Se a pergunta estiver numa língua local moçambicana (Macua, Changana, Sena, etc.), responde em português mas reconhece a língua nos chips
- Neutralidade política absoluta — apenas factos e fontes, sem opiniões
").

(** ** CORS helpers *)

Definition corsHeaders (origin : list N) : gmap (list N) (list N) :=
  let allowed :=
    if bool_decide (origin ∈ ALLOWED_ORIGINS) then origin
    else default (js "undefined") (ALLOWED_ORIGINS !! 0%nat) in
  {[ js "Access-Control-Allow-Origin" := allowed;
     js "Access-Control-Allow-Methods" := js "POST, OPTIONS";
     js "Access-Control-Allow-Headers" := js "Content-Type";
     js "Access-Control-Max-Age" := js "86400" ]}.

(** A [Response]: [body] is [None] for the [null] body. *)
Record Response := {
  status : Z;
  headers : gmap (list N) (list N);
  body : option (list N)
}.

(** ** The request, the environment and the upstream call *)

(** What the handler reads of a [Request]: its method, the pathname of
    [new URL(request.url)], its [headers.get] and the text of its
    body. *)
Record Request := {
  method : list N;
  url_pathname : list N;
  headers_get : list N -> option (list N);
  body_text : list N
}.

Record Env := { GEMINI_API_KEY : list N }.

(** The arguments of the outbound [fetch]. *)
Record FetchInit := {
  fetch_url : list N;
  fetch_method : list N;
  fetch_headers : gmap (list N) (list N);
  fetch_body : list N
}.

(** The upstream [Response]: its status and the text of its body. *)
Record UpstreamResponse := { upstream_status : Z; upstream_text : list N }.

(** [Response.ok] *)
Definition ok (r : UpstreamResponse) : bool :=
  (200 <=? upstream_status r) && (upstream_status r <=? 299).

(** One [console.error('Gemini error:', status, err)] line. *)
Record LogLine := { log_label : list N; log_status : Z; log_err : value }.

(** What one invocation of the handler does: how it completes, the
    rate-limit store it leaves, the lines it logs and the upstream
    calls it issues. *)
Record Outcome := {
  completes : completion Response;
  store_after : store;
  console_error : list LogLine;
  upstream_calls : list FetchInit
}.

(** The three fence patterns of the source. *)
Definition re_fence_json : RegExp.regexp :=              (* /^```json\s*/i *)
  {| RegExp.source := RegExp.Bol :: RegExp.lit (js "```json") ++ [RegExp.StarWs];
     RegExp.ignoreCase := true |}.
Definition re_fence_open : RegExp.regexp :=              (* /^```\s*/i *)
  {| RegExp.source := RegExp.Bol :: RegExp.lit (js "```") ++ [RegExp.StarWs];
     RegExp.ignoreCase := true |}.
Definition re_fence_close : RegExp.regexp :=             (* /\s*```$/ *)
  {| RegExp.source := RegExp.StarWs :: RegExp.lit (js "```") ++ [RegExp.Eol];
     RegExp.ignoreCase := false |}.

(** Strip possible markdown fences. *)
Definition strip_fences (rawText : list N) : list N :=
  trim (RegExp.replace_empty re_fence_close
          (RegExp.replace_empty re_fence_open
             (RegExp.replace_empty re_fence_json rawText))).

(** ** Main handler *)

Section Handler.

(** The builtins of the runtime. [JSON_parse] answers [None] where
    [JSON.parse] throws a [SyntaxError]; [global_fetch] answers [None]
    where [fetch] rejects. *)
Variable JSON_parse : list N -> option value.
Variable JSON_stringify : value -> list N.
Variable global_fetch : FetchInit -> option UpstreamResponse.

(** [await r.json()] on a body text *)
Definition read_json (text : list N) : completion value :=
  match JSON_parse text with
  | Some v => Normal v
  | None => Throw SyntaxError
  end.

(** The headers are [{ 'Content-Type': ..., ...corsHeaders(origin) }]:
    a key of [corsHeaders] would win over the one before the spread. *)
Definition json (body : value) (status : Z) (origin : list N) : Response :=
  {| status := status;
     headers := corsHeaders origin
                ∪ {[ js "Content-Type" := js "application/json" ]};
     body := Some (JSON_stringify body) |}.

(** Parse body: the statements of the first [try] block. *)
Definition parse_body (text : list N) : completion (list N) :=
  body ← read_json text;
  q ← Js.get body (js "query");
  trimmed ← Js.call_trim (Js.or q (VStr (js "")));
  let query := slice0 500 trimmed in            (* hard cap at 500 chars *)
  if bool_decide (query = []) then Throw (Error (js "empty"))
  else Normal query.

(** Call Gemini: the arguments of the outbound [fetch]. *)
Definition gemini_call (env : Env) (query : list N) : FetchInit :=
  {| fetch_url := GEMINI_ENDPOINT ++ js "?key=" ++ GEMINI_API_KEY env;
     fetch_method := js "POST";
     fetch_headers := {[ js "Content-Type" := js "application/json" ]};
     fetch_body :=
       JSON_stringify
         (VObj
            [ (js "system_instruction",
                VObj [ (js "parts",
                         VArr [ VObj [ (js "text", VStr SYSTEM_INSTRUCTION) ] ]) ]);
              (js "contents",
                VArr [ VObj [ (js "parts",
                                VArr [ VObj [ (js "text", VStr query) ] ]) ] ]);
              (js "generationConfig",
                VObj [ (js "temperature", VNum 0.3);
                       (js "maxOutputTokens", VNum 1024) ]) ]) |}.

(** [data.candidates[0].content.parts[0].text.trim()] *)
Definition raw_text (data : value) : completion (list N) :=
  candidates ← Js.get data (js "candidates");
  candidate ← Js.get0 candidates;
  content ← Js.get candidate (js "content");
  parts ← Js.get content (js "parts");
  part ← Js.get0 parts;
  text ← Js.get part (js "text");
  Js.call_trim text.

Definition respond (σ : store) (log : list LogLine) (calls : list FetchInit)
           (r : Response) : Outcome :=
  {| completes := Normal r; store_after := σ;
     console_error := log; upstream_calls := calls |}.

Definition fetch (now : Z) (request : Request) (env : Env) (σ : store) : Outcome :=
  let origin := Js.or_str (headers_get request (js "Origin")) (js "") in
  (* Preflight *)
  if bool_decide (method request = js "OPTIONS") then
    respond σ [] []
      {| status := 204; headers := corsHeaders origin; body := None |}
  (* Only POST to /api/query *)
  else if bool_decide (method request ≠ js "POST")
          || bool_decide (url_pathname request ≠ js "/api/query") then
    respond σ [] [] (json (VObj [ (js "error", VStr (js "Not found")) ]) 404 origin)
  else
    (* Rate limiting *)
    let ip := Js.or_str (headers_get request (js "CF-Connecting-IP")) (js "unknown") in
    let '(limited, σ) := isRateLimited now ip σ in
    if limited then
      respond σ [] []
        (json (VObj [ (js "error",
                       VStr (js "Demasiados pedidos. Tente novamente em 1 minuto.")) ])
           429 origin)
    else
      (* Parse body *)
      match parse_body (body_text request) with
      | Throw _ =>
          respond σ [] []
            (json (VObj [ (js "error",
                           VStr (js "Pergunta inválida ou ausente.")) ]) 400 origin)
      | Normal query =>
          (* Call Gemini *)
          let call := gemini_call env query in
          match global_fetch call with
          | None =>
              {| completes := Throw NetworkFailure; store_after := σ;
                 console_error := []; upstream_calls := [call] |}
          | Some geminiRes =>
              if negb (ok geminiRes) then
                let err := default (VObj []) (JSON_parse (upstream_text geminiRes)) in
                respond σ
                  [ {| log_label := js "Gemini error:";
                       log_status := upstream_status geminiRes;
                       log_err := err |} ]
                  [call]
                  (json (VObj [ (js "error",
                                 VStr (js "Erro ao processar a pergunta. Tente novamente.")) ])
                     502 origin)
              else
                match read_json (upstream_text geminiRes) with
                | Throw e =>
                    {| completes := Throw e; store_after := σ;
                       console_error := []; upstream_calls := [call] |}
                | Normal data =>
                    match raw_text data with
                    | Throw _ =>
                        respond σ [] [call]
                          (json (VObj [ (js "error",
                                         VStr (js "Resposta inesperada do servidor.")) ])
                             502 origin)
                    | Normal rawText =>
                        (* Strip possible markdown fences *)
                        let clean := strip_fences rawText in
                        match JSON_parse clean with
                        | None =>
                            respond σ [] [call]
                              (json (VObj [ (js "error",
                       VStr (js "Não foi possível interpretar a resposta. Tente novamente.")) ])
                                 502 origin)
                        | Some parsed =>
                            respond σ [] [call] (json parsed 200 origin)
                        end
                    end
                end
          end
      end.

End Handler.

(** ** A reference instance of the builtins

    The handler is a function of [JSON.parse] and [JSON.stringify].  To
    run it on concrete requests, this module gives a reader and a
    printer for a fragment of JSON: every text [Mini.parse] accepts is
    JSON and is read as [JSON.parse] reads it, up to the order of the
    properties (JavaScript lists integer-like keys first); it rejects
    number literals with a fraction or an exponent or beyond 2^53. *)

Module Mini.

Definition json_ws (c : N) : bool :=
  ((c =? 32) || (c =? 9) || (c =? 10) || (c =? 13))%N.

Fixpoint skip_ws (s : list N) : list N :=
  match s with
  | c :: s' => if json_ws c then skip_ws s' else s
  | [] => []
  end.

Fixpoint expect (lit s : list N) : option (list N) :=
  match lit, s with
  | [], _ => Some s
  | a :: lit', b :: s' => if (a =? b)%N then expect lit' s' else None
  | _ :: _, [] => None
  end.

Definition hex_digit (c : N) : option N :=
  if ((48 <=? c) && (c <=? 57))%N then Some (c - 48)%N
  else if ((65 <=? c) && (c <=? 70))%N then Some (c - 55)%N
  else if ((97 <=? c) && (c <=? 102))%N then Some (c - 87)%N
  else None.

(** The characters of a string literal after its opening quote. *)
Fixpoint string_chars (s : list N) : option (list N * list N) :=
  match s with
  | [] => None
  | 34%N :: rest => Some ([], rest)
  | 92%N :: 117%N :: a :: b :: c :: d :: rest =>
      a ← hex_digit a; b ← hex_digit b; c ← hex_digit c; d ← hex_digit d;
      '(cs, rest') ← string_chars rest;
      Some ((a * 4096 + b * 256 + c * 16 + d)%N :: cs, rest')
  | 92%N :: e :: rest =>
      u ← (if (e =? 34)%N || (e =? 92)%N || (e =? 47)%N then Some e
           else if (e =? 98)%N then Some 8%N
           else if (e =? 102)%N then Some 12%N
           else if (e =? 110)%N then Some 10%N
           else if (e =? 114)%N then Some 13%N
           else if (e =? 116)%N then Some 9%N
           else None);
      '(cs, rest') ← string_chars rest;
      Some (u :: cs, rest')
  | c :: rest =>
      if (c <? 32)%N || (c =? 92)%N then None
      else '(cs, rest') ← string_chars rest; Some (c :: cs, rest')
  end.

Definition is_digit (c : N) : bool := ((48 <=? c) && (c <=? 57))%N.

Fixpoint digits (acc : Z) (s : list N) : Z * list N :=
  match s with
  | c :: s' =>
      if is_digit c then digits (acc * 10 + Z.of_N (c - 48)) s' else (acc, s)
  | [] => (acc, [])
  end.

(** An integer literal (an optional minus sign, then 0 or a digit
    string without leading zero) not followed by a fraction or an
    exponent. *)
Definition number (s : list N) : option (float * list N) :=
  let '(neg, s1) := match s with 45%N :: r => (true, r) | _ => (false, s) end in
  match s1 with
  | d :: r =>
      if negb (is_digit d) then None else
      let '(z, rest) := if (d =? 48)%N then (0, r) else digits 0 s1 in
      let bad := match rest with
                 | c :: _ => is_digit c || (c =? 46)%N || (c =? 101)%N || (c =? 69)%N
                 | [] => false
                 end in
      if bad || (2 ^ 53 <? z) then None
      else
        let f := PrimFloat.of_uint63 (Uint63.of_Z z) in
        Some (if neg then PrimFloat.opp f else f, rest)
  | [] => None
  end.

(** [CreateDataProperty]: a repeated key keeps its place and takes the
    later value. *)
Fixpoint set_prop (k : list N) (v : value) (props : list (list N * value))
  : list (list N * value) :=
  match props with
  | [] => [(k, v)]
  | (k', v') :: rest =>
      if bool_decide (k' = k) then (k, v) :: rest
      else (k', v') :: set_prop k v rest
  end.

Section Descent.
Variable parse_value : list N -> option (value * list N).

(** The elements of a non-empty array, up to its closing bracket. *)
Fixpoint elements (fuel : nat) (acc : list value) (s : list N)
  : option (value * list N) :=
  match fuel with
  | O => None
  | S fuel' =>
      '(v, s1) ← parse_value s;
      match skip_ws s1 with
      | 44%N :: s2 => elements fuel' (acc ++ [v]) s2
      | 93%N :: s2 => Some (VArr (acc ++ [v]), s2)
      | _ => None
      end
  end.

Fixpoint members (fuel : nat) (acc : list (list N * value)) (s : list N)
  : option (value * list N) :=
  match fuel with
  | O => None
  | S fuel' =>
      match skip_ws s with
      | 34%N :: s1 =>
          '(k, s2) ← string_chars s1;
          match skip_ws s2 with
          | 58%N :: s3 =>
              '(v, s4) ← parse_value s3;
              match skip_ws s4 with
              | 44%N :: s5 => members fuel' (set_prop k v acc) s5
              | 125%N :: s5 => Some (VObj (set_prop k v acc), s5)
              | _ => None
              end
          | _ => None
          end
      | _ => None
      end
  end.
End Descent.

Fixpoint parse_value (fuel : nat) (s : list N) : option (value * list N) :=
  match fuel with
  | O => None
  | S fuel' =>
      match skip_ws s with
      | 110%N :: _ => r ← expect (js "null") (skip_ws s); Some (VNull, r)
      | 116%N :: _ => r ← expect (js "true") (skip_ws s); Some (VBool true, r)
      | 102%N :: _ => r ← expect (js "false") (skip_ws s); Some (VBool false, r)
      | 34%N :: s1 => '(cs, r) ← string_chars s1; Some (VStr cs, r)
      | 91%N :: s1 =>
          match skip_ws s1 with
          | 93%N :: r => Some (VArr [], r)
          | _ => elements (parse_value fuel') (length s) [] s1
          end
      | 123%N :: s1 =>
          match skip_ws s1 with
          | 125%N :: r => Some (VObj [], r)
          | _ => members (parse_value fuel') (length s) [] s1
          end
      | s0 => '(f, r) ← number s0; Some (VNum f, r)
      end
  end.

(** [JSON.parse] on the fragment. *)
Definition parse (s : list N) : option value :=
  '(v, rest) ← parse_value (S (length s)) s;
  match skip_ws rest with
  | [] => Some v
  | _ => None
  end.

(** Decimal digits of a natural number, most significant first. *)
Fixpoint digits_of (fuel : nat) (n : N) (acc : list N) : list N :=
  match fuel with
  | O => acc
  | S fuel' =>
      let acc' := (48 + n mod 10)%N :: acc in
      if (n <? 10)%N then acc' else digits_of fuel' (n / 10)%N acc'
  end.

Definition decimal (n : N) : list N := digits_of (S (N.to_nat (N.log2 n))) n [].

Fixpoint strip_zeros (rev_digits : list N) : list N :=
  match rev_digits with
  | 48%N :: r => strip_zeros r
  | _ => rev_digits
  end.

(** A finite number as a decimal numeral of the same value (an
    integer as JavaScript prints it below 1e21; a fraction by its
    exact expansion); [NaN] and the infinities as [null]. *)
Definition number_text (f : float) : list N :=
  match Prim2SF f with
  | S754_zero _ => js "0"
  | S754_infinity _ | S754_nan => js "null"
  | S754_finite neg m e =>
      let sign := if neg then js "-" else [] in
      match e with
      | Zneg k =>
          let k := Pos.to_nat k in
          let n := (Npos m * 5 ^ N.of_nat k)%N in
          let int := (n / 10 ^ N.of_nat k)%N in
          let frac := decimal (n mod 10 ^ N.of_nat k)%N in
          let frac := replicate (k - length frac) 48%N ++ frac in
          let frac := rev (strip_zeros (rev frac)) in
          sign ++ decimal int ++ (if bool_decide (frac = []) then [] else js "." ++ frac)
      | _ => sign ++ decimal (Npos m * 2 ^ Z.to_N e)%N
      end
  end.

Definition hex (d : N) : N := if (d <? 10)%N then (48 + d)%N else (87 + d)%N.

Definition quote_char (c : N) : list N :=
  if (c =? 34)%N then [92; 34]%N
  else if (c =? 92)%N then [92; 92]%N
  else if (c =? 8)%N then [92; 98]%N
  else if (c =? 12)%N then [92; 102]%N
  else if (c =? 10)%N then [92; 110]%N
  else if (c =? 13)%N then [92; 114]%N
  else if (c =? 9)%N then [92; 116]%N
  else if (c <? 32)%N then [92; 117; 48; 48; hex (c / 16); hex (c mod 16)]%N
  else [c].

Definition quote (s : list N) : list N :=
  34%N :: concat (map quote_char s) ++ [34%N].

Definition join (parts : list (list N)) : list N :=
  match parts with
  | [] => []
  | p :: ps => p ++ concat (map (fun q => 44%N :: q) ps)
  end.

(** [JSON.stringify] of a value without lone surrogates; an
    [undefined] element prints as [null] and an [undefined] property
    is left out. *)
Fixpoint stringify (v : value) : list N :=
  match v with
  | VUndefined | VNull => js "null"
  | VBool true => js "true"
  | VBool false => js "false"
  | VNum f => number_text f
  | VStr s => quote s
  | VArr elems => 91%N :: join (map stringify elems) ++ [93%N]
  | VObj props =>
      123%N ::
        join ((fix members (ps : list (list N * value)) : list (list N) :=
                 match ps with
                 | [] => []
                 | (_, VUndefined) :: ps' => members ps'
                 | (k, v') :: ps' => (quote k ++ 58%N :: stringify v') :: members ps'
                 end) props)
        ++ [125%N]
  end.

End Mini.

(** ** The rate limiter as a transition system *)

(** A sequence of calls [isRateLimited(ip)], each at its [Date.now()],
    by any clients in any order. *)
Fixpoint calls (trace : list (Z * list N)) (σ : store) : list bool * store :=
  match trace with
  | [] => ([], σ)
  | (now, ip) :: rest =>
      let '(limited, σ1) := isRateLimited now ip σ in
      let '(ds, σ2) := calls rest σ1 in
      (limited :: ds, σ2)
  end.

(** The decisions a trace gives to the calls of one client, in order. *)
Fixpoint decisions (ip : list N) (trace : list (Z * list N)) (σ : store) : list bool :=
  match trace with
  | [] => []
  | (now, ip') :: rest =>
      let '(limited, σ1) := isRateLimited now ip' σ in
      if bool_decide (ip' = ip) then limited :: decisions ip rest σ1
      else decisions ip rest σ1
  end.

(** The times at which one client calls. *)
Definition times_of (ip : list N) (trace : list (Z * list N)) : list Z :=
  fst <$> filter (fun c => c.2 = ip) trace.

(** What one call does to the window record of its client, as a
    function of the record alone. *)
Definition tick (now : Z) (w : option Entry) : Entry :=
  let e := default {| count := 0; start := now |} w in
  let e := if now - start e >? 60000 then {| count := 0; start := now |} else e in
  set_count (count e + 1) e.

(** Every reference of the table points into the heap and no two keys
    share an entry object. *)
Record store_wf (σ : store) : Prop := {
  wf_bound : ∀ ip ref, rateLimitMap σ !! ip = Some ref → (ref < length (heap σ))%nat;
  wf_inj : ∀ ip1 ip2 ref,
      rateLimitMap σ !! ip1 = Some ref → rateLimitMap σ !! ip2 = Some ref → ip1 = ip2
}.

(** The first call of a window of [ip]: there is no record yet, or the
    stored window start is more than 60,000 ms old. *)
Definition opens_window (σ : store) (ip : list N) (now : Z) : Prop :=
  match window_of σ ip with
  | None => True
  | Some e => now - start e > 60000
  end.

(** ** What the handler reads of a request *)

Definition ACAO : list N := js "Access-Control-Allow-Origin".

(** The origin the handler computes its headers from. *)
Definition origin_of (request : Request) : list N :=
  Js.or_str (headers_get request (js "Origin")) (js "").

(** The client key the handler hands to the rate limiter. *)
Definition ip_of (request : Request) : list N :=
  Js.or_str (headers_get request (js "CF-Connecting-IP")) (js "unknown").

(** ** Example data *)

Definition client_a : list N := js "203.0.113.7".
Definition client_b : list N := js "198.51.100.2".

(** A trace in which [client_a] opens a window at time 1000 and calls 21
    more times within it, with calls of [client_b] in between. *)
Definition busy_minute : list (Z * list N) :=
  (1500, client_b) :: replicate 20 (2000, client_a)
    ++ [ (2500, client_b); (61000, client_a) ].

(** ** Comparing requests and outcomes *)

(** Two requests that differ at most in their [Origin] header. *)
Definition same_except_origin (r1 r2 : Request) : Prop :=
  method r1 = method r2
  ∧ url_pathname r1 = url_pathname r2
  ∧ body_text r1 = body_text r2
  ∧ ∀ name, name ≠ js "Origin" → headers_get r1 name = headers_get r2 name.

(** Two outcomes that differ at most in the headers of their response. *)
Definition same_but_headers (o1 o2 : Outcome) : Prop :=
  store_after o1 = store_after o2
  ∧ console_error o1 = console_error o2
  ∧ upstream_calls o1 = upstream_calls o2
  ∧ match completes o1, completes o2 with
    | Normal a, Normal b => status a = status b ∧ body a = body b
    | Throw e1, Throw e2 => e1 = e2
    | _, _ => False
    end.

(** ** Which bodies the validator turns down *)

(** A JSON value that is not a string. *)
Definition json_non_string (q : value) : bool :=
  match q with
  | VNull | VBool _ | VNum _ | VArr _ | VObj _ => true
  | VUndefined | VStr _ => false
  end.

(** The bodies the handler answers with 400: the text is not JSON, or
    the parsed body has no [query] (it is [null], not an object, or an
    object without that property), or [query] is not a string, or it is
    a string that is empty once trimmed. *)
Definition invalid_body (JSON_parse : list N -> option value) (text : list N) : bool :=
  match JSON_parse text with
  | None => true
  | Some body =>
      match Js.get body (js "query") with
      | Throw _ => true
      | Normal (VStr s) => bool_decide (trim s = [])
      | Normal _ => true
      end
  end.

(** The three conditions the specification lists for a validation
    error, read generously: the text is not JSON; the [query] field is
    absent; the query after trimming is empty, where a falsy query
    counts as the empty string. *)
Definition listed_invalid (JSON_parse : list N -> option value) (text : list N) : bool :=
  match JSON_parse text with
  | None => true
  | Some body =>
      match Js.get body (js "query") with
      | Throw _ | Normal VUndefined => true
      | Normal q =>
          match Js.or q (VStr (js "")) with
          | VStr s => bool_decide (trim s = [])
          | _ => false
          end
      end
  end.

(** ** What the log holds of an upstream error body *)

(** The specification's words for the log of an upstream failure, read
    generously: a logged line holds the upstream body [raw], as the
    text itself or as the value it parses to. *)
Definition logs_upstream_body (JSON_parse : list N -> option value)
           (o : Outcome) (raw : list N) : Prop :=
  ∃ line, line ∈ console_error o
          ∧ (log_err line = VStr raw ∨ JSON_parse raw = Some (log_err line)).

(** ** Texts wrapped in markdown fences *)

(** Three backticks. *)
Definition fence : list N := js "```".

(** A string of whitespace only. *)
Definition all_ws (w : list N) : Prop := Forall (λ c, is_ws c = true) w.

(** A text that starts and ends with a character that is neither
    whitespace nor a backtick, as every JSON text does. *)
Definition bare (t : list N) : Prop :=
  ∃ a b, head t = Some a ∧ last t = Some b
         ∧ is_ws a = false ∧ a ≠ 96%N ∧ is_ws b = false ∧ b ≠ 96%N.

(** The letters of [json], in any case. *)
Definition json_tag (tag : list N) : Prop :=
  map RegExp.canonicalize tag = js "JSON".

(** An opening marker before the text [t]: nothing, or three backticks,
    an optional [json] tag in any case, and whitespace.  (Three
    backticks directly followed by a text that starts with [j] would
    read as the start of a tag.) *)
Definition open_marker (m t : list N) : Prop :=
  m = []
  ∨ ∃ tag w,
      m = fence ++ tag ++ w ∧ all_ws w
      ∧ (json_tag tag
         ∨ tag = [] ∧ (w = [] → ∀ c, head t = Some c → RegExp.canonicalize c ≠ 74%N)).

(** A closing marker: nothing, or whitespace and three backticks. *)
Definition close_marker (m : list N) : Prop :=
  m = [] ∨ ∃ w, m = w ++ fence ∧ all_ws w.

(** ** Example requests and upstream replies *)

Definition example_env : Env := {| GEMINI_API_KEY := js "test-key" |}.

(** A POST to /api/query from [client_a] with the given [Origin] header
    and body. *)
Definition example_post (origin : option (list N)) (body : list N) : Request :=
  {| method := js "POST";
     url_pathname := js "/api/query";
     headers_get := λ name,
       if bool_decide (name = js "Origin") then origin
       else if bool_decide (name = js "CF-Connecting-IP") then Some client_a
       else None;
     body_text := body |}.

(** The success envelope of the upstream service around a candidate
    text. *)
Definition envelope (text : list N) : value :=
  VObj [ (js "candidates",
           VArr [ VObj [ (js "content",
                           VObj [ (js "parts",
                                    VArr [ VObj [ (js "text", VStr text) ] ]) ]) ] ]) ].

(** An upstream service that answers every call with one status and
    one body. *)
Definition upstream_answers (code : Z) (text : list N)
  : FetchInit → option UpstreamResponse :=
  λ _, Some {| upstream_status := code; upstream_text := text |}.

(** An upstream service whose [fetch] rejects. *)
Definition upstream_down : FetchInit → option UpstreamResponse := λ _, None.

(** The candidate text of the specification's example: the object
    [{"a":1}] in a [json] fence, with whitespace around. *)
Definition example_reply : list N :=
  js " ```json" ++ [10%N] ++ jsq "{'a':1}" ++ [10%N] ++ js "``` ".

Definition question : list N := jsq "{'query': 'Qual é o orçamento do MINED para 2026?'}".

Definition site_origin : list N := js "https://athumoz.github.io".
Definition other_origin : list N := js "https://evil.example".

(** A body whose query is 600 times the letter [x]. *)
Definition long_question : list N :=
  jsq "{'query': '" ++ repeat1 120 600 ++ jsq "'}".

(** Bodies whose query is not a string. *)
Definition number_question : list N := jsq "{'query': 5}".
Definition null_question : list N := jsq "{'query': null}".

(** The table after the first call of [client_a] at time 0. *)
Definition first_call_store : store := (isRateLimited 0 client_a empty_store).2.

(** ** The handler over a sequence of requests *)

(** The one endpoint: [POST /api/query]. *)
Definition routed (request : Request) : bool :=
  bool_decide (method request = js "POST")
  && bool_decide (url_pathname request = js "/api/query").

(** The success envelope of the upstream service around any value in
    the place of the candidate text. *)
Definition envelope_of (text : value) : value :=
  VObj [ (js "candidates",
           VArr [ VObj [ (js "content",
                           VObj [ (js "parts",
                                    VArr [ VObj [ (js "text", text) ] ]) ]) ] ]) ].

(** The names of the headers a response can carry. *)
Definition response_header_names : list (list N) :=
  [ js "Content-Type"; js "Access-Control-Allow-Origin";
    js "Access-Control-Allow-Methods"; js "Access-Control-Allow-Headers";
    js "Access-Control-Max-Age" ].

(** The calls of [isRateLimited] that a sequence of requests causes:
    one per POST to /api/query, for its client key at its time. *)
Definition limiter_calls (reqs : list (Z * Request)) : list (Z * list N) :=
  omap (λ '(now, request),
          if routed request then Some (now, ip_of request) else None) reqs.

#[global] Arguments limiter_calls : simpl never.

Section Serving.

Variable JSON_parse : list N -> option value.
Variable JSON_stringify : value -> list N.
Variable global_fetch : FetchInit -> option UpstreamResponse.

(** The worker handling requests one after the other, each at its
    [Date.now()]: the module-level [rateLimitMap] that one invocation
    leaves is the one the next finds. *)
Fixpoint serve (env : Env) (reqs : list (Z * Request)) (σ : store)
  : list Outcome * store :=
  match reqs with
  | [] => ([], σ)
  | (now, request) :: rest =>
      let o := fetch JSON_parse JSON_stringify global_fetch now request env σ in
      let '(os, σ') := serve env rest (store_after o) in
      (o :: os, σ')
  end.

End Serving.

(** ** The record of one key *)

(** The window record of one client after its calls at the times [ts],
    from the record [w]: the counter of the client on its own. *)
Definition ticks (ts : list Z) (w : option Entry) : option Entry :=
  foldl (λ w t, Some (tick t w)) w ts.

(** ** The patterns as string operations *)

(** The input left after the literal [l], when the input starts with
    it ([ic]: up to case). *)
Fixpoint strip_literal (ic : bool) (l s : list N) : option (list N) :=
  match l, s with
  | [], _ => Some s
  | c :: l', x :: s' =>
      if RegExp.same_char ic c x then strip_literal ic l' s' else None
  | _ :: _, [] => None
  end.

(** ** More example data *)

(** A GET to the endpoint of the POST. *)
Definition example_get : Request :=
  {| method := js "GET";
     url_pathname := js "/api/query";
     headers_get := λ _, None;
     body_text := js "" |}.

(** A POST to /api/query without the connecting-IP header. *)
Definition headerless_post (body : list N) : Request :=
  {| method := js "POST";
     url_pathname := js "/api/query";
     headers_get := λ _, None;
     body_text := body |}.

(** The table after twenty calls of [client_a] at time 0. *)
Definition spent_store : store := (calls (replicate 20 (0, client_a)) empty_store).2.

(** An upstream service that answers 200 with the example reply in its
    envelope. *)
Definition upstream_fine : FetchInit → option UpstreamResponse :=
  upstream_answers 200 (Mini.stringify (envelope example_reply)).

(** * Properties *)

(** ** The rate limiter *)

Section RateLimiter.

Implicit Types (σ : store) (ip : list N) (now : Z).

Lemma store_wf_empty : store_wf empty_store.
Proof. split; simpl; intros *; rewrite lookup_empty; discriminate. Qed.

Lemma wf_window_is_Some σ ip ref :
  store_wf σ → rateLimitMap σ !! ip = Some ref → is_Some (heap σ !! ref).
Proof. intros Hwf Hr. apply lookup_lt_is_Some. by eapply wf_bound. Qed.

(** The heap-mutating code, seen from the table: the record of [ip]
    steps by [tick], the decision is read off the stepped record, and
    the records of the other keys stay. *)
Lemma isRateLimited_tick now ip σ :
  store_wf σ →
  let '(limited, σ') := isRateLimited now ip σ in
  limited = (count (tick now (window_of σ ip)) >? 20)
  ∧ window_of σ' ip = Some (tick now (window_of σ ip))
  ∧ (∀ ip', ip' ≠ ip → window_of σ' ip' = window_of σ ip')
  ∧ dom (rateLimitMap σ') = {[ ip ]} ∪ dom (rateLimitMap σ)
  ∧ store_wf σ'.
Proof.
  intros Hwf. unfold isRateLimited, window_of, tick.
  destruct (rateLimitMap σ !! ip) as [ref|] eqn:Hip; simpl.
  - destruct (wf_window_is_Some _ _ _ Hwf Hip) as [e He].
    assert (Hlt : (ref < length (heap σ))%nat) by by eapply wf_bound.
    rewrite He; simpl. rewrite (list_lookup_total_correct _ _ _ He).
    set (e1 := if now - start e >? 60000 then _ else e).
    set (h1 := if now - start e >? 60000 then _ else heap σ).
    assert (Hlen1 : length h1 = length (heap σ)).
    { unfold h1. destruct (_ >? _); [apply length_insert | done]. }
    assert (H1 : h1 !! ref = Some e1).
    { unfold h1, e1. destruct (_ >? _); [by apply list_lookup_insert_eq | done]. }
    rewrite (list_lookup_total_correct _ _ _ H1).
    assert (H2 : <[ref := set_count (count e1 + 1) e1]> h1 !! ref
                 = Some (set_count (count e1 + 1) e1)).
    { apply list_lookup_insert_eq. lia. }
    rewrite (list_lookup_total_correct _ _ _ H2).
    rewrite lookup_insert_eq; simpl. split_and!; [done | done | | |].
    + intros ip' Hne. rewrite lookup_insert_ne by done.
      destruct (rateLimitMap σ !! ip') as [ref'|] eqn:Hip'; simpl; [|done].
      assert (ref ≠ ref') by (intros ->; apply Hne; by eapply wf_inj).
      rewrite list_lookup_insert_ne by done.
      unfold h1. destruct (_ >? _); [by rewrite list_lookup_insert_ne | done].
    + rewrite dom_insert_L. done.
    + split; simpl.
      * intros ip' ref'. rewrite length_insert, Hlen1.
        destruct (decide (ip = ip')) as [->|Hne].
        -- rewrite lookup_insert_eq. by intros [= <-].
        -- rewrite lookup_insert_ne by done. by eapply wf_bound.
      * intros ip1 ip2 ref'.
        rewrite (insert_id (rateLimitMap σ) ip ref) by done. by eapply wf_inj.
  - set (e0 := {| count := 0; start := now |}).
    assert (H0 : (heap σ ++ [e0]) !! length (heap σ) = Some e0).
    { rewrite lookup_app_r by lia. by rewrite Nat.sub_diag. }
    rewrite (list_lookup_total_correct _ _ _ H0).
    assert (Hfresh : (now - now >? 60000) = false)
      by (rewrite Z.gtb_ltb; apply Z.ltb_ge; lia).
    simpl. rewrite !Hfresh.
    rewrite (list_lookup_total_correct _ _ _ H0).
    assert (H2 : <[length (heap σ) := set_count (count e0 + 1) e0]> (heap σ ++ [e0])
                   !! length (heap σ) = Some (set_count (count e0 + 1) e0)).
    { apply list_lookup_insert_eq. rewrite length_app; simpl; lia. }
    rewrite (list_lookup_total_correct _ _ _ H2).
    rewrite lookup_insert_eq; simpl. split_and!; [done | done | | |].
    + intros ip' Hne. rewrite lookup_insert_ne by done.
      destruct (rateLimitMap σ !! ip') as [ref'|] eqn:Hip'; simpl; [|done].
      assert (ref' < length (heap σ))%nat by by eapply wf_bound.
      rewrite list_lookup_insert_ne by lia. by rewrite lookup_app_l.
    + rewrite dom_insert_L. done.
    + split; simpl.
      * intros ip' ref'. rewrite length_insert, length_app; simpl.
        destruct (decide (ip = ip')) as [->|Hne].
        -- rewrite lookup_insert_eq. intros [= <-]. lia.
        -- rewrite lookup_insert_ne by done. intros Hr.
           pose proof (wf_bound _ Hwf _ _ Hr). lia.
      * intros ip1 ip2 ref'.
        destruct (decide (ip1 = ip)) as [->|Hne1], (decide (ip2 = ip)) as [->|Hne2];
          rewrite ?lookup_insert_eq, ?lookup_insert_ne by done; try done.
        -- intros [= <-] Hr. pose proof (wf_bound _ Hwf _ _ Hr). lia.
        -- intros Hr [= <-]. pose proof (wf_bound _ Hwf _ _ Hr). lia.
        -- by eapply wf_inj.
Qed.

Lemma isRateLimited_wf now ip σ : store_wf σ → store_wf (isRateLimited now ip σ).2.
Proof.
  intros Hwf. pose proof (isRateLimited_tick now ip σ Hwf) as H.
  destruct (isRateLimited now ip σ). apply H.
Qed.

Lemma calls_wf trace σ : store_wf σ → store_wf (calls trace σ).2.
Proof.
  revert σ. induction trace as [|[now ip] rest IH]; intros σ Hwf; simpl; [done|].
  pose proof (isRateLimited_wf now ip σ Hwf) as H1.
  destruct (isRateLimited now ip σ) as [d σ1]. specialize (IH σ1 H1).
  destruct (calls rest σ1). exact IH.
Qed.

(** Every store the worker can reach from its initial empty table. *)
Lemma reachable_wf trace : store_wf (calls trace empty_store).2.
Proof. apply calls_wf, store_wf_empty. Qed.

Lemma tick_same_window now c t0 :
  now - t0 ≤ 60000 →
  tick now (Some {| count := c; start := t0 |}) = {| count := c + 1; start := t0 |}.
Proof.
  intros H. unfold tick; simpl.
  replace (now - t0 >? 60000) with false; [done|].
  symmetry. rewrite Z.gtb_ltb. apply Z.ltb_ge. lia.
Qed.

Lemma tick_opens now w :
  match w with None => True | Some e => now - start e > 60000 end →
  tick now w = {| count := 1; start := now |}.
Proof.
  unfold tick. destruct w as [e|]; simpl; intros H.
  - replace (now - start e >? 60000) with true; [done|].
    symmetry. rewrite Z.gtb_ltb. apply Z.ltb_lt. lia.
  - replace (now - now >? 60000) with false; [done|].
    symmetry. rewrite Z.gtb_ltb. apply Z.ltb_ge. lia.
Qed.

Lemma times_of_cons now ip' ip rest :
  times_of ip ((now, ip') :: rest)
  = if bool_decide (ip' = ip) then now :: times_of ip rest else times_of ip rest.
Proof.
  unfold times_of. rewrite filter_cons. simpl.
  case_bool_decide; destruct (decide (ip' = ip)); done.
Qed.

(** Inside a window that started at [t0] with [c] calls counted so
    far, the [k]-th further call of [ip] is denied exactly when
    [c + k] exceeds 20, whatever the other clients do meanwhile. *)
Lemma decisions_in_window ip t0 rest : ∀ σ c,
  store_wf σ →
  window_of σ ip = Some {| count := c; start := t0 |} →
  Forall (λ t, t - t0 ≤ 60000) (times_of ip rest) →
  decisions ip rest σ
  = (λ k : nat, c + Z.of_nat k >? 20) <$> seq 1 (length (times_of ip rest))
  ∧ window_of (calls rest σ).2 ip
    = Some {| count := c + Z.of_nat (length (times_of ip rest)); start := t0 |}.
Proof.
  induction rest as [|[now ip'] rest IH]; intros σ c Hwf Hw Hin; simpl.
  { split; [done|]. rewrite Hw. do 2 f_equal. lia. }
  rewrite times_of_cons in Hin |- *.
  pose proof (isRateLimited_tick now ip' σ Hwf) as Hstep.
  destruct (isRateLimited now ip' σ) as [d σ1].
  destruct Hstep as (Hd & Hself & Hframe & _ & Hwf1).
  case_bool_decide as Heq.
  - subst ip'. apply Forall_cons in Hin as [Hnow Hin].
    rewrite Hw, tick_same_window in Hd, Hself by done. simpl in Hd.
    destruct (IH σ1 (c + 1) Hwf1 Hself Hin) as [IHd IHw].
    destruct (calls rest σ1) as [ds σ2]. simpl in IHw |- *. split.
    + rewrite IHd, Hd. f_equal. rewrite <- (fmap_S_seq 1), <- list_fmap_compose.
      apply list_fmap_ext. intros _ k _. simpl. f_equal. lia.
    + rewrite IHw. do 2 f_equal. lia.
  - rewrite <- (Hframe ip) in Hw by congruence.
    destruct (IH σ1 c Hwf1 Hw Hin) as [IHd IHw].
    destruct (calls rest σ1) as [ds σ2]. done.
Qed.

(** Two keys that share one entry object would not be independent:
    the table of the worker never gets there ([reachable_wf]). *)
Example aliased_entries_interfere :
  let σ := {| heap := [ {| count := 5; start := 0 |} ];
              rateLimitMap := {[ js "a" := 0%nat; js "b" := 0%nat ]} |} in
  window_of σ (js "b") = Some {| count := 5; start := 0 |}
  ∧ window_of (isRateLimited 10 (js "a") σ).2 (js "b")
    = Some {| count := 6; start := 0 |}.
Proof. vm_compute. done. Qed.

End RateLimiter.

(** C1. For every client key, the calls of one window are admitted up
    to the 20th and denied from the 21st on.  A window is opened by a
    call that finds no record of the key or finds a window start more
    than 60,000 ms old: that call resets the count and is admitted.  The
    further calls of the key up to 60,000 ms after the window start are
    counted one by one, the denied ones too, and the [k]-th call of the
    window is denied exactly when [k] exceeds 20. *)
Theorem rate_limit_window (ip : list N) (σ : store) (t0 : Z) (rest : list (Z * list N)) :
  store_wf σ →
  opens_window σ ip t0 →
  Forall (λ t, t - t0 ≤ 60000) (times_of ip rest) →
  let n := S (length (times_of ip rest)) in
  (isRateLimited t0 ip σ).1 = false
  ∧ window_of (isRateLimited t0 ip σ).2 ip = Some {| count := 1; start := t0 |}
  ∧ decisions ip ((t0, ip) :: rest) σ = (λ k : nat, bool_decide (20 < k)%nat) <$> seq 1 n
  ∧ window_of (calls ((t0, ip) :: rest) σ).2 ip
    = Some {| count := Z.of_nat n; start := t0 |}.
Proof.
  intros Hwf Hopen Hin n. simpl.
  pose proof (isRateLimited_tick t0 ip σ Hwf) as Hstep.
  destruct (isRateLimited t0 ip σ) as [d σ1].
  destruct Hstep as (Hd & Hself & _ & _ & Hwf1).
  rewrite (tick_opens t0 (window_of σ ip) Hopen) in Hd, Hself. simpl in Hd.
  destruct (decisions_in_window ip t0 rest σ1 1 Hwf1 Hself Hin) as [Hds Hw].
  destruct (calls rest σ1) as [ds σ2]. simpl in Hw |- *.
  rewrite bool_decide_true by done. split_and!; [done | done | |].
  - rewrite Hds, Hd. change (bool_decide (20 < 1)%nat) with false. f_equal.
    rewrite <- (fmap_S_seq 1), <- !list_fmap_compose. apply list_fmap_ext.
    intros _ k _. simpl. rewrite Z.gtb_ltb.
    case_bool_decide; [apply Z.ltb_lt | apply Z.ltb_ge]; lia.
  - rewrite Hw. do 2 f_equal. lia.
Qed.

(** [client_a] on the trace [busy_minute]: 20 calls admitted, the 21st
    and the 22nd denied and counted; then a call 69 seconds after the
    window start, which opens a new window and is admitted. *)
Lemma rate_limit_window_witness :
  decisions client_a ((1000, client_a) :: busy_minute) empty_store
  = replicate 20 false ++ [true; true]
  ∧ window_of (calls ((1000, client_a) :: busy_minute) empty_store).2 client_a
    = Some {| count := 22; start := 1000 |}
  ∧ (isRateLimited 70000 client_a
       (calls ((1000, client_a) :: busy_minute) empty_store).2).1 = false
  ∧ window_of (isRateLimited 70000 client_a
                 (calls ((1000, client_a) :: busy_minute) empty_store).2).2 client_a
    = Some {| count := 1; start := 70000 |}.
Proof.
  assert (Hin : Forall (λ t, t - 1000 ≤ 60000) (times_of client_a busy_minute)).
  { apply Forall_forall. intros t Ht. vm_compute in Ht.
    repeat (apply elem_of_cons in Ht as [->|Ht]; [lia|]).
    by apply elem_of_nil in Ht. }
  pose proof (rate_limit_window client_a empty_store 1000 busy_minute
                store_wf_empty I Hin) as (_ & _ & Hd & Hw).
  assert (Hstale : opens_window (calls ((1000, client_a) :: busy_minute) empty_store).2
                     client_a 70000) by (vm_compute; reflexivity).
  pose proof (rate_limit_window client_a _ 70000 []
                (reachable_wf ((1000, client_a) :: busy_minute)) Hstale
                (List.Forall_nil _))
    as (Hadmit & Hreset & _).
  split; [exact Hd|]. split; [exact Hw|]. split; [exact Hadmit | exact Hreset].
Defined.

(** C10. A call for one client key creates or mutates only that key's
    entry: the window record of every other key is unchanged and the
    table gains at most that key.  Hence the decisions a client gets
    depend only on its own record and on the times of its own calls,
    not on the calls of the other clients. *)
Theorem rate_limit_frame (ip : list N) :
  (∀ now σ ip', store_wf σ → ip' ≠ ip →
     window_of (isRateLimited now ip σ).2 ip' = window_of σ ip')
  ∧ (∀ now σ, store_wf σ →
       dom (rateLimitMap (isRateLimited now ip σ).2) = {[ ip ]} ∪ dom (rateLimitMap σ))
  ∧ (∀ trace1 trace2 σ1 σ2, store_wf σ1 → store_wf σ2 →
       window_of σ1 ip = window_of σ2 ip →
       times_of ip trace1 = times_of ip trace2 →
       decisions ip trace1 σ1 = decisions ip trace2 σ2).
Proof.
  split_and!.
  - intros now σ ip' Hwf Hne.
    pose proof (isRateLimited_tick now ip σ Hwf) as H.
    destruct (isRateLimited now ip σ). by apply H.
  - intros now σ Hwf.
    pose proof (isRateLimited_tick now ip σ Hwf) as H.
    destruct (isRateLimited now ip σ). apply H.
  - (* skip the calls of the other clients on both sides, then step together *)
    assert (Hskip : ∀ trace σ, store_wf σ → times_of ip trace = [] →
                               decisions ip trace σ = []).
    { induction trace as [|[now ip'] rest IH]; intros σ Hwf Ht; simpl; [done|].
      rewrite times_of_cons in Ht.
      pose proof (isRateLimited_wf now ip' σ Hwf) as Hwf1.
      destruct (isRateLimited now ip' σ) as [d σ'].
      case_bool_decide; [done | by apply IH]. }
    induction trace1 as [|[now ip'] rest1 IH1]; intros trace2 σ1 σ2 Hwf1 Hwf2 Hw Ht.
    { simpl. symmetry. by apply Hskip. }
    simpl. rewrite times_of_cons in Ht.
    pose proof (isRateLimited_tick now ip' σ1 Hwf1) as Hstep1.
    destruct (isRateLimited now ip' σ1) as [d1 σ1'].
    destruct Hstep1 as (Hd1 & Hself1 & Hframe1 & _ & Hwf1').
    case_bool_decide as Heq.
    + subst ip'.
      (* find the matching call in the second trace *)
      revert σ2 Hwf2 Hw Ht.
      induction trace2 as [|[now2 ip2] rest2 IH2]; intros σ2 Hwf2 Hw Ht; [done|].
      simpl. rewrite times_of_cons in Ht.
      pose proof (isRateLimited_tick now2 ip2 σ2 Hwf2) as Hstep2.
      destruct (isRateLimited now2 ip2 σ2) as [d2 σ2'].
      destruct Hstep2 as (Hd2 & Hself2 & Hframe2 & _ & Hwf2').
      case_bool_decide as Heq2.
      * subst ip2. injection Ht as -> Ht. rewrite <- Hw in Hd2, Hself2.
        f_equal; [congruence|]. apply IH1; [done | done | congruence | done].
      * apply IH2; [done | | done]. rewrite Hw. symmetry. apply Hframe2. congruence.
    + apply IH1; [done | done | | done].
      rewrite <- Hw. apply Hframe1. congruence.
Qed.

Lemma rate_limit_frame_witness :
  window_of (isRateLimited 2000 client_a (calls busy_minute empty_store).2).2 client_b
  = window_of (calls busy_minute empty_store).2 client_b.
Proof.
  apply (proj1 (rate_limit_frame client_a)); [apply reachable_wf | done].
Defined.

(** ** The fence patterns *)

Section FenceLemmas.
Implicit Types (s t w : list N).

Lemma trimStart_ws w s : all_ws w → trimStart (w ++ s) = trimStart s.
Proof. induction 1 as [|c w Hc _ IH]; simpl; [done|]. by rewrite Hc. Qed.

Lemma trimStart_head s a : head s = Some a → is_ws a = false → trimStart s = s.
Proof. destruct s as [|c s]; simpl; [done|]. intros [= ->] ->. done. Qed.

Lemma trimEnd_ws w s : all_ws w → trimEnd (s ++ w) = trimEnd s.
Proof.
  intros Hw. unfold trimEnd. rewrite reverse_app.
  rewrite trimStart_ws; [done|]. by apply Forall_reverse.
Qed.

Lemma trimEnd_last s b : last s = Some b → is_ws b = false → trimEnd s = s.
Proof.
  intros Hl Hb. unfold trimEnd.
  rewrite (trimStart_head _ b); [apply reverse_involutive | | done].
  by rewrite head_reverse.
Qed.

Lemma trim_padded w1 w2 s a b :
  all_ws w1 → all_ws w2 → head s = Some a → last s = Some b →
  is_ws a = false → is_ws b = false →
  trim (w1 ++ s ++ w2) = s.
Proof.
  intros H1 H2 Ha Hb Hwa Hwb. unfold trim.
  rewrite trimStart_ws by done.
  rewrite (trimStart_head (s ++ w2) a); [| by destruct s | done].
  rewrite trimEnd_ws by done. by eapply trimEnd_last.
Qed.

Lemma trimStart_split s : ∃ w, all_ws w ∧ s = w ++ trimStart s.
Proof.
  induction s as [|c s (w & Hw & IH)]; simpl.
  - exists []. split; [constructor | done].
  - destruct (is_ws c) eqn:Hc.
    + exists (c :: w). split; [by constructor|]. simpl. by f_equal.
    + exists []. split; [constructor | done].
Qed.

Lemma ws_not_backtick c : is_ws c = true → c ≠ 96%N.
Proof. by intros Hc ->. Qed.

Lemma ws_not_J c : is_ws c = true → RegExp.canonicalize c ≠ 74%N.
Proof.
  intros Hc Hj. unfold RegExp.canonicalize in Hj.
  destruct ((97 <=? c)%N && (c <=? 122)%N) eqn:Hr.
  - assert (c = 106%N) as -> by lia. done.
  - by subst c.
Qed.

Lemma canonical_backtick c : RegExp.canonicalize c = 96%N → c = 96%N.
Proof.
  unfold RegExp.canonicalize.
  destruct ((97 <=? c)%N && (c <=? 122)%N) eqn:Hr; [|done].
  apply andb_true_iff in Hr as [H1%N.leb_le H2%N.leb_le]. lia.
Qed.

(** *** The opening patterns *)

Lemma source_fence_json :
  RegExp.source re_fence_json
  = RegExp.Bol :: map RegExp.Chr [96; 96; 96; 106; 115; 111; 110]%N ++ [RegExp.StarWs].
Proof. reflexivity. Qed.

Lemma source_fence_open :
  RegExp.source re_fence_open
  = RegExp.Bol :: map RegExp.Chr [96; 96; 96]%N ++ [RegExp.StarWs].
Proof. reflexivity. Qed.

Lemma source_fence_close :
  RegExp.source re_fence_close
  = RegExp.StarWs :: map RegExp.Chr [96; 96; 96]%N ++ [RegExp.Eol].
Proof. reflexivity. Qed.

(** A pattern anchored by [^] matches at index 0 or nowhere. *)
Lemma exec_from_anchored r p s :
  RegExp.source r = RegExp.Bol :: p → RegExp.exec_from r false s = None.
Proof.
  intros Hr. induction s as [|c s IH]; simpl; rewrite Hr; simpl; [done|].
  by rewrite IH.
Qed.

(** A trailing [\s*] takes all the whitespace there is. *)
Lemma star_ws_greedy ic at0 s :
  RegExp.star_ws (RegExp.match_here ic []) at0 s = Some (trimStart s).
Proof.
  revert at0. induction s as [|c s IH]; intros at0; simpl; [done|].
  destruct (is_ws c); [by rewrite IH | done].
Qed.

Lemma replace_anchored_miss r p s :
  RegExp.source r = RegExp.Bol :: p →
  RegExp.match_here (RegExp.ignoreCase r) p true s = None →
  RegExp.replace_empty r s = s.
Proof.
  intros Hr Hmiss. unfold RegExp.replace_empty.
  destruct s as [|c s]; simpl; rewrite Hr; simpl; rewrite Hmiss; [done|].
  by rewrite (exec_from_anchored r p).
Qed.

Lemma replace_anchored_hit r p s rest :
  RegExp.source r = RegExp.Bol :: p →
  RegExp.match_here (RegExp.ignoreCase r) p true s = Some rest →
  RegExp.replace_empty r s = rest.
Proof.
  intros Hr Hhit. unfold RegExp.replace_empty.
  destruct s as [|c s]; simpl; rewrite Hr; simpl; by rewrite Hhit.
Qed.

Lemma same_char_backtick c :
  RegExp.same_char true 96 c = bool_decide (c = 96%N).
Proof.
  unfold RegExp.same_char. change (RegExp.canonicalize 96) with 96%N.
  case_bool_decide as Hc.
  - by subst c.
  - apply N.eqb_neq. intros Heq. apply Hc. by apply canonical_backtick.
Qed.

Lemma fence_open_hit s :
  RegExp.replace_empty re_fence_open (fence ++ s) = trimStart s.
Proof.
  apply (replace_anchored_hit _ _ _ _ source_fence_open).
  change (fence ++ s) with (96 :: 96 :: 96 :: s)%N. simpl.
  rewrite ?same_char_backtick; simpl.
  exact (star_ws_greedy true false s).
Qed.

Lemma fence_open_miss s :
  head s ≠ Some 96%N → RegExp.replace_empty re_fence_open s = s.
Proof.
  intros Hs. apply (replace_anchored_miss _ _ _ source_fence_open).
  destruct s as [|c s]; simpl; [done|].
  rewrite same_char_backtick, bool_decide_false; [done|].
  intros ->. by apply Hs.
Qed.

Lemma fence_json_miss s :
  head s ≠ Some 96%N → RegExp.replace_empty re_fence_json s = s.
Proof.
  intros Hs. apply (replace_anchored_miss _ _ _ source_fence_json).
  destruct s as [|c s]; simpl; [done|].
  rewrite same_char_backtick, bool_decide_false; [done|].
  intros ->. by apply Hs.
Qed.

Lemma fence_json_untagged s :
  (∀ c, head s = Some c → RegExp.canonicalize c ≠ 74%N) →
  RegExp.replace_empty re_fence_json (fence ++ s) = fence ++ s.
Proof.
  intros Hs. apply (replace_anchored_miss _ _ _ source_fence_json).
  change (fence ++ s) with (96 :: 96 :: 96 :: s)%N. simpl.
  rewrite ?same_char_backtick; simpl.
  destruct s as [|c s]; [done|].
  unfold RegExp.same_char. change (RegExp.canonicalize 106) with 74%N.
  destruct (N.eqb_spec 74 (RegExp.canonicalize c)) as [Heq|]; [|done].
  by destruct (Hs c eq_refl).
Qed.

Lemma fence_json_hit tag s :
  json_tag tag →
  RegExp.replace_empty re_fence_json (fence ++ tag ++ s) = trimStart s.
Proof.
  intros Htag. apply (replace_anchored_hit _ _ _ _ source_fence_json).
  unfold json_tag in Htag.
  destruct tag as [|a [|b [|c [|d [|? ?]]]]]; try done.
  injection Htag as Ha Hb Hc Hd.
  change (fence ++ [a; b; c; d] ++ s) with (96 :: 96 :: 96 :: a :: b :: c :: d :: s)%N.
  simpl. rewrite ?same_char_backtick; simpl.
  unfold RegExp.same_char. rewrite Ha, Hb, Hc, Hd. simpl.
  exact (star_ws_greedy true false s).
Qed.

(** *** The closing pattern *)

Lemma close_tail at0 s :
  RegExp.match_here false (map RegExp.Chr [96; 96; 96]%N ++ [RegExp.Eol]) at0 s
  = if bool_decide (s = fence) then Some [] else None.
Proof.
  change fence with [96; 96; 96]%N.
  assert (Hchr : ∀ c, RegExp.same_char false 96 c = bool_decide (c = 96%N)).
  { intros c. unfold RegExp.same_char. case_bool_decide as Hc.
    - by subst c.
    - apply N.eqb_neq. congruence. }
  destruct s as [|c1 s]; [done|]. simpl. rewrite Hchr.
  case_bool_decide as H1; [subst c1 | by rewrite bool_decide_false by congruence].
  destruct s as [|c2 s]; [done|]. rewrite Hchr.
  case_bool_decide as H2; [subst c2 | by rewrite bool_decide_false by congruence].
  destruct s as [|c3 s]; [done|]. rewrite Hchr.
  case_bool_decide as H3; [subst c3 | by rewrite bool_decide_false by congruence].
  destruct s as [|c4 s]; [done|]. by rewrite bool_decide_false.
Qed.

Lemma close_here at0 s :
  RegExp.match_here false (RegExp.source re_fence_close) at0 s
  = if bool_decide (trimStart s = fence) then Some [] else None.
Proof.
  rewrite source_fence_close.
  change (RegExp.match_here false (RegExp.StarWs :: ?p) at0 s)
    with (RegExp.star_ws (RegExp.match_here false p) at0 s).
  revert at0. induction s as [|c s IH]; intros at0.
  - simpl. done.
  - cbn [RegExp.star_ws trimStart]. destruct (is_ws c) eqn:Hc.
    + rewrite IH. case_bool_decide; [done|].
      rewrite close_tail. rewrite bool_decide_false; [done|].
      intros [= -> _]. done.
    + apply close_tail.
Qed.

Lemma exec_from_close at0 s :
  RegExp.exec_from re_fence_close at0 s
  = if bool_decide (trimStart s = fence) then Some ([], [])
    else match s with
         | [] => None
         | c :: s' =>
             match RegExp.exec_from re_fence_close false s' with
             | Some (pre, rest) => Some (c :: pre, rest)
             | None => None
             end
         end.
Proof.
  destruct s; cbn [RegExp.exec_from];
    change (RegExp.ignoreCase re_fence_close) with false;
    rewrite close_here; by case_bool_decide.
Qed.

Lemma fence_close_hit s w :
  all_ws w →
  s = [] ∨ (∃ b, last s = Some b ∧ is_ws b = false) →
  RegExp.replace_empty re_fence_close (s ++ w ++ fence) = s.
Proof.
  intros Hw Hs. unfold RegExp.replace_empty.
  assert (Hexec : ∀ at0, RegExp.exec_from re_fence_close at0 (s ++ w ++ fence)
                         = Some (s, [])).
  { induction s as [|c s IH]; intros at0; rewrite exec_from_close.
    - rewrite bool_decide_true; [done|]. simpl. by rewrite trimStart_ws.
    - rewrite bool_decide_false.
      + simpl. rewrite IH; [done|].
        destruct Hs as [|(b & Hb & Hwb)]; [done|].
        destruct s as [|c' s]; [by left|]. right. exists b.
        by rewrite last_cons_cons in Hb.
      + intros Heq.
        destruct (trimStart_split ((c :: s) ++ w ++ fence)) as (w0 & Hw0 & Hsplit).
        rewrite Heq in Hsplit.
        rewrite app_assoc in Hsplit. apply app_inv_tail in Hsplit. subst w0.
        apply Forall_app in Hw0 as [Hcs _].
        destruct Hs as [|(b & Hb & Hwb)]; [done|].
        apply last_Some_elem_of in Hb.
        rewrite Forall_forall in Hcs. specialize (Hcs b Hb). congruence. }
  by rewrite Hexec, app_nil_r.
Qed.

Lemma fence_close_miss s :
  last s ≠ Some 96%N → RegExp.replace_empty re_fence_close s = s.
Proof.
  intros Hs. unfold RegExp.replace_empty.
  assert (Hexec : ∀ at0, RegExp.exec_from re_fence_close at0 s = None).
  { induction s as [|c s IH]; intros at0; rewrite exec_from_close.
    - done.
    - rewrite bool_decide_false.
      + rewrite IH; [done|]. destruct s as [|c' s]; [done|].
        by rewrite last_cons_cons in Hs.
      + intros Heq.
        destruct (trimStart_split (c :: s)) as (w0 & Hw0 & Hsplit).
        rewrite Heq in Hsplit. apply Hs. rewrite Hsplit.
        change fence with ([96; 96]%N ++ [96%N]). rewrite app_assoc.
        apply last_snoc. }
  by rewrite Hexec.
Qed.

(** *** Fenced texts *)

Lemma strip_fences_fenced w1 w2 mo mc t :
  all_ws w1 → all_ws w2 → bare t → open_marker mo t → close_marker mc →
  strip_fences (trim (w1 ++ mo ++ t ++ mc ++ w2)) = t.
Proof.
  intros Hw1 Hw2 (a & b & Ha & Hb & Hwa & Ha96 & Hwb & Hb96) Hopen Hclose.
  assert (Ht : t ≠ []) by (intros ->; done).
  assert (Hhead_t : ∀ s, head (t ++ s) = Some a) by (intros s; by destruct t).
  (* the first trim leaves the markers and the text *)
  assert (Hraw : trim (w1 ++ mo ++ t ++ mc ++ w2) = mo ++ t ++ mc).
  { replace (w1 ++ mo ++ t ++ mc ++ w2) with (w1 ++ (mo ++ t ++ mc) ++ w2)
      by by rewrite <- !app_assoc.
    assert (∃ a', head (mo ++ t ++ mc) = Some a' ∧ is_ws a' = false) as (a' & Ha' & Hwa').
    { destruct Hopen as [->|(tag & w & -> & _)].
      - exists a. split; [|done]. simpl. apply Hhead_t.
      - exists 96%N. split; done. }
    assert (∃ b', last (mo ++ t ++ mc) = Some b' ∧ is_ws b' = false) as (b' & Hb' & Hwb').
    { destruct Hclose as [->|(w & -> & _)].
      - exists b. split; [|done]. by rewrite app_nil_r, last_app, Hb.
      - exists 96%N. split; [|done].
        change fence with ([96; 96]%N ++ [96%N]). rewrite !app_assoc. apply last_snoc. }
    by eapply trim_padded. }
  rewrite Hraw. unfold strip_fences.
  (* the two opening patterns leave the text and the closing marker *)
  assert (Hopened : RegExp.replace_empty re_fence_open
                      (RegExp.replace_empty re_fence_json (mo ++ t ++ mc))
                    = t ++ mc).
  { assert (Hmiss : head (t ++ mc) ≠ Some 96%N) by (rewrite Hhead_t; congruence).
    assert (Hstart : ∀ w, all_ws w → trimStart (w ++ t ++ mc) = t ++ mc).
    { intros w Hw. rewrite trimStart_ws by done. by eapply trimStart_head. }
    destruct Hopen as [->|(tag & w & -> & Hw & [Htag|[-> Hj]])].
    - simpl. by rewrite fence_json_miss, fence_open_miss.
    - rewrite <- !app_assoc. rewrite fence_json_hit by done.
      by rewrite Hstart, fence_open_miss.
    - change ((fence ++ [] ++ w) ++ t ++ mc) with (fence ++ w ++ t ++ mc).
      rewrite fence_json_untagged.
      + by rewrite fence_open_hit, Hstart.
      + intros c Hc. destruct w as [|c0 w].
        * apply Hj; [done|]. simpl in Hc. rewrite Hhead_t in Hc. by rewrite Ha.
        * injection Hc as <-. apply ws_not_J. by apply Forall_cons in Hw as [? _]. }
  rewrite Hopened.
  (* the closing pattern leaves the text *)
  assert (Hclosed : RegExp.replace_empty re_fence_close (t ++ mc) = t).
  { destruct Hclose as [->|(w & -> & Hw)].
    - rewrite app_nil_r. apply fence_close_miss. rewrite Hb. congruence.
    - apply fence_close_hit; [done|]. right. by exists b. }
  rewrite Hclosed.
  pose proof (trim_padded [] [] t a b) as Htrim.
  rewrite app_nil_r in Htrim. apply Htrim; by try constructor.
Qed.
End FenceLemmas.

(** ** The handler *)

(** A lookup in [corsHeaders origin]: the keys are literals. *)
Ltac cors_lookup :=
  unfold corsHeaders, ACAO;
  repeat (rewrite lookup_insert_ne by (vm_compute; discriminate));
  try rewrite lookup_insert_eq; try rewrite lookup_empty.

Lemma corsHeaders_ACAO origin :
  corsHeaders origin !! ACAO
  = Some (if bool_decide (origin ∈ ALLOWED_ORIGINS) then origin
          else js "https://athumoz.github.io").
Proof. cors_lookup. reflexivity. Qed.

Lemma corsHeaders_no_content_type origin :
  corsHeaders origin !! js "Content-Type" = None.
Proof. cors_lookup. done. Qed.

Lemma POST_not_OPTIONS : js "POST" ≠ js "OPTIONS".
Proof. vm_compute. discriminate. Qed.

(** Two outcomes built by the same [return]. *)
Ltac same_outcome :=
  unfold same_but_headers, respond, json;
  cbn [completes store_after console_error upstream_calls status body];
  repeat apply conj; reflexivity.

Section HandlerProperties.

Variable JSON_parse : list N -> option value.
Variable JSON_stringify : value -> list N.
Variable global_fetch : FetchInit -> option UpstreamResponse.

Local Abbreviation fetch := (fetch JSON_parse JSON_stringify global_fetch).
Local Abbreviation json := (json JSON_stringify).
Local Abbreviation parse_body := (parse_body JSON_parse).
Local Abbreviation gemini_call := (gemini_call JSON_stringify).

Implicit Types (request : Request) (env : Env) (σ : store) (now : Z).

(** *** The exits of the handler, one lemma per [return] *)

Lemma fetch_preflight now request env σ :
  method request = js "OPTIONS" →
  fetch now request env σ
  = respond σ [] []
      {| status := 204; headers := corsHeaders (origin_of request); body := None |}.
Proof. intros Hm. unfold fetch. by rewrite bool_decide_true. Qed.

Lemma fetch_not_found now request env σ :
  method request ≠ js "OPTIONS" →
  method request ≠ js "POST" ∨ url_pathname request ≠ js "/api/query" →
  fetch now request env σ
  = respond σ [] [] (json (VObj [ (js "error",
                                   VStr (js "Not found")) ]) 404 (origin_of request)).
Proof.
  intros Hm Hr. unfold fetch. rewrite bool_decide_false by done.
  destruct Hr; [rewrite bool_decide_true by done
               | rewrite (bool_decide_true (url_pathname _ ≠ _)) by done;
                 rewrite orb_true_r]; done.
Qed.

(** Past routing, the handler is the rest of its body. *)
Lemma fetch_routed now request env σ :
  method request = js "POST" →
  url_pathname request = js "/api/query" →
  fetch now request env σ
  = let origin := origin_of request in
    let '(limited, σ) := isRateLimited now (ip_of request) σ in
    if limited then
      respond σ [] []
        (json (VObj [ (js "error",
                       VStr (js "Demasiados pedidos. Tente novamente em 1 minuto.")) ])
           429 origin)
    else
      match parse_body (body_text request) with
      | Throw _ =>
          respond σ [] []
            (json (VObj [ (js "error",
                           VStr (js "Pergunta inválida ou ausente.")) ]) 400 origin)
      | Normal query =>
          let call := gemini_call env query in
          match global_fetch call with
          | None =>
              {| completes := Throw NetworkFailure; store_after := σ;
                 console_error := []; upstream_calls := [call] |}
          | Some geminiRes =>
              if negb (ok geminiRes) then
                respond σ
                  [ {| log_label := js "Gemini error:";
                       log_status := upstream_status geminiRes;
                       log_err := default (VObj [])
                                    (JSON_parse (upstream_text geminiRes)) |} ]
                  [call]
                  (json (VObj [ (js "error",
                                 VStr (js "Erro ao processar a pergunta. Tente novamente.")) ])
                     502 origin)
              else
                match read_json JSON_parse (upstream_text geminiRes) with
                | Throw e =>
                    {| completes := Throw e; store_after := σ;
                       console_error := []; upstream_calls := [call] |}
                | Normal data =>
                    match raw_text data with
                    | Throw _ =>
                        respond σ [] [call]
                          (json (VObj [ (js "error",
                                         VStr (js "Resposta inesperada do servidor.")) ])
                             502 origin)
                    | Normal rawText =>
                        match JSON_parse (strip_fences rawText) with
                        | None =>
                            respond σ [] [call]
                              (json (VObj [ (js "error",
                       VStr (js "Não foi possível interpretar a resposta. Tente novamente.")) ])
                                 502 origin)
                        | Some parsed =>
                            respond σ [] [call] (json parsed 200 origin)
                        end
                    end
                end
          end
      end.
Proof.
  intros Hm Hp. unfold fetch.
  rewrite bool_decide_false by (rewrite Hm; apply POST_not_OPTIONS).
  rewrite bool_decide_false by (intros H; by apply H).
  rewrite bool_decide_false by (intros H; by apply H).
  reflexivity.
Qed.

(** Every [return] of the handler past the preflight builds its
    response with [json]. *)
Lemma fetch_returns_json now request env σ r :
  method request ≠ js "OPTIONS" →
  completes (fetch now request env σ) = Normal r →
  ∃ payload code,
    r = json payload code (origin_of request) ∧ code ∈ [404; 429; 400; 502; 200].
Proof.
  intros Hm.
  destruct (decide (method request = js "POST")) as [Hpost|Hpost];
    [destruct (decide (url_pathname request = js "/api/query")) as [Hpath|Hpath]|].
  - rewrite fetch_routed by done. simpl.
    destruct (isRateLimited now (ip_of request) σ) as [[] σ1]; simpl.
    { intros [= <-]. eexists _, _. split; [done|]. set_solver. }
    repeat case_match; simpl; intros [= <-]; eexists _, _; (split; [done|]); set_solver.
  - rewrite fetch_not_found by auto. simpl.
    intros [= <-]. eexists _, _. split; [done|]. set_solver.
  - rewrite fetch_not_found by auto. simpl.
    intros [= <-]. eexists _, _. split; [done|]. set_solver.
Qed.

(** C7. A request with method [OPTIONS] gets status 204 with no body
    and the four CORS headers computed from its origin, whatever its
    path and whatever the rate-limit table holds; the table is left as
    it was, nothing is logged and no upstream call is issued, and the
    answer does not depend on the body or on the upstream service. *)
Theorem preflight_short_circuits now request env σ :
  method request = js "OPTIONS" →
  fetch now request env σ
  = {| completes := Normal {| status := 204;
                              headers := corsHeaders (origin_of request);
                              body := None |};
       store_after := σ; console_error := []; upstream_calls := [] |}
  ∧ corsHeaders (origin_of request) !! ACAO
    = Some (if bool_decide (origin_of request ∈ ALLOWED_ORIGINS)
            then origin_of request else js "https://athumoz.github.io")
  ∧ corsHeaders (origin_of request) !! js "Access-Control-Allow-Methods"
    = Some (js "POST, OPTIONS")
  ∧ corsHeaders (origin_of request) !! js "Access-Control-Allow-Headers"
    = Some (js "Content-Type")
  ∧ corsHeaders (origin_of request) !! js "Access-Control-Max-Age"
    = Some (js "86400").
Proof.
  intros Hm. split_and!.
  - by apply fetch_preflight.
  - apply corsHeaders_ACAO.
  - cors_lookup. done.
  - cors_lookup. done.
  - cors_lookup. done.
Qed.

Lemma same_except_origin_ip r1 r2 : same_except_origin r1 r2 → ip_of r1 = ip_of r2.
Proof.
  intros (_ & _ & _ & Hh). unfold ip_of. rewrite Hh; [done|].
  vm_compute. discriminate.
Qed.

(** C2. The [Access-Control-Allow-Origin] header is the request's
    origin verbatim when the origin is in the allow-list, and the first
    allow-listed origin otherwise (so also for the empty string, which
    stands for an absent [Origin] header).  Every response carries the
    header so computed, and the origin decides nothing else: two
    requests that differ only in their [Origin] header get the same
    status and body, leave the same rate-limit table and cause the same
    upstream calls. *)
Theorem cors_origin_resolution :
  (∀ origin, origin ∈ ALLOWED_ORIGINS → corsHeaders origin !! ACAO = Some origin)
  ∧ (∀ origin, origin ∉ ALLOWED_ORIGINS →
       corsHeaders origin !! ACAO = ALLOWED_ORIGINS !! 0%nat)
  ∧ corsHeaders (js "") !! ACAO = ALLOWED_ORIGINS !! 0%nat
  ∧ (∀ request, headers_get request (js "Origin") = None → origin_of request = js "")
  ∧ (∀ now request env σ r,
       completes (fetch now request env σ) = Normal r →
       headers r !! ACAO = corsHeaders (origin_of request) !! ACAO)
  ∧ (∀ now r1 r2 env σ,
       same_except_origin r1 r2 →
       same_but_headers (fetch now r1 env σ) (fetch now r2 env σ)).
Proof.
  split; [|split; [|split; [|split; [|split]]]].
  - intros origin Hin. rewrite corsHeaders_ACAO. by rewrite bool_decide_true.
  - intros origin Hout. rewrite corsHeaders_ACAO. by rewrite bool_decide_false.
  - rewrite corsHeaders_ACAO. reflexivity.
  - intros request Hh. unfold origin_of. by rewrite Hh.
  - intros now request env σ r Hr.
    destruct (decide (method request = js "OPTIONS")) as [Hm|Hm].
    + rewrite fetch_preflight in Hr by done. by injection Hr as <-.
    + destruct (fetch_returns_json _ _ _ _ _ Hm Hr) as (payload & code & -> & _).
      simpl. apply lookup_union_l. cors_lookup. done.
  - intros now r1 r2 env σ Hsame.
    pose proof (same_except_origin_ip _ _ Hsame) as Hip.
    destruct Hsame as (Hm & Hp & Hb & _).
    destruct (decide (method r1 = js "OPTIONS")) as [Hopt|Hopt].
    { rewrite !fetch_preflight by congruence. same_outcome. }
    destruct (decide (method r1 = js "POST")) as [Hpost|Hpost];
      [destruct (decide (url_pathname r1 = js "/api/query")) as [Hpath|Hpath]|].
    + rewrite !fetch_routed by congruence. simpl. rewrite <- Hip, <- Hb.
      destruct (isRateLimited now (ip_of r1) σ) as [[] σ1]; simpl.
      { same_outcome. }
      repeat case_match; same_outcome.
    + rewrite !fetch_not_found by (rewrite <- ?Hm, <- ?Hp; auto). same_outcome.
    + rewrite !fetch_not_found by (rewrite <- ?Hm, <- ?Hp; auto). same_outcome.
Qed.

(** C5 (amended). When the upstream call answers with a status outside
    200..299, the handler returns status 502 with one fixed message.
    What is logged is the upstream status and the upstream body parsed
    as JSON, or the empty object when that body is not JSON; neither
    occurs in the response, which is the same whatever they are. *)
Theorem upstream_failure_is_502 now request env σ σ1 query geminiRes :
  method request = js "POST" →
  url_pathname request = js "/api/query" →
  isRateLimited now (ip_of request) σ = (false, σ1) →
  parse_body (body_text request) = Normal query →
  global_fetch (gemini_call env query) = Some geminiRes →
  ok geminiRes = false →
  fetch now request env σ
  = {| completes :=
         Normal {| status := 502;
                   headers := corsHeaders (origin_of request)
                              ∪ {[ js "Content-Type" := js "application/json" ]};
                   body := Some (JSON_stringify
                                   (VObj [ (js "error",
                             VStr (js "Erro ao processar a pergunta. Tente novamente.")) ])) |};
       store_after := σ1;
       console_error :=
         [ {| log_label := js "Gemini error:";
              log_status := upstream_status geminiRes;
              log_err := match JSON_parse (upstream_text geminiRes) with
                         | Some err => err
                         | None => VObj []
                         end |} ];
       upstream_calls := [ gemini_call env query ] |}.
Proof.
  intros Hm Hp Hadmit Hq Hcall Hok.
  rewrite fetch_routed by done. simpl. rewrite Hadmit, Hq, Hcall, Hok. simpl.
  by destruct (JSON_parse (upstream_text geminiRes)).
Qed.

(** The handler throws in two cases only, both past validation: the
    upstream [fetch] rejects, or a successful upstream answer is not
    JSON.  In every other case it returns a response. *)
Lemma fetch_throws now request env σ e :
  completes (fetch now request env σ) = Throw e ↔
  method request = js "POST"
  ∧ url_pathname request = js "/api/query"
  ∧ (isRateLimited now (ip_of request) σ).1 = false
  ∧ ∃ query,
      parse_body (body_text request) = Normal query
      ∧ match global_fetch (gemini_call env query) with
        | None => e = NetworkFailure
        | Some geminiRes =>
            ok geminiRes = true
            ∧ JSON_parse (upstream_text geminiRes) = None
            ∧ e = SyntaxError
        end.
Proof.
  destruct (decide (method request = js "OPTIONS")) as [Hopt|Hopt].
  { rewrite fetch_preflight by done. simpl. split; [done|].
    intros (Hpost & _). rewrite Hopt in Hpost. by destruct POST_not_OPTIONS. }
  destruct (decide (method request = js "POST")) as [Hpost|Hpost];
    [destruct (decide (url_pathname request = js "/api/query")) as [Hpath|Hpath]|].
  2,3: rewrite fetch_not_found by auto; simpl; split; [done | by intros (? & ? & _)].
  rewrite fetch_routed by done. simpl.
  destruct (isRateLimited now (ip_of request) σ) as [[] σ1]; simpl.
  { split; [done | by intros (_ & _ & ? & _)]. }
  destruct (parse_body (body_text request)) as [query|e'] eqn:Hq; simpl.
  2:{ split; [done | by intros (_ & _ & _ & ? & ? & _)]. }
  transitivity (match global_fetch (gemini_call env query) with
                | None => e = NetworkFailure
                | Some geminiRes =>
                    ok geminiRes = true
                    ∧ JSON_parse (upstream_text geminiRes) = None
                    ∧ e = SyntaxError
                end).
  2:{ split; [intros H; split_and!; eauto | by intros (_ & _ & _ & q & [= <-] & H)]. }
  destruct (global_fetch (gemini_call env query)) as [geminiRes|]; simpl.
  2:{ split; [by intros [= <-] | by intros ->]. }
  destruct (ok geminiRes); simpl; [|split; [done | by intros (? & _)]].
  unfold read_json.
  destruct (JSON_parse (upstream_text geminiRes)) as [data|]; simpl.
  2:{ split; [by intros [= <-] | by intros (_ & _ & ->)]. }
  split; [|by intros (_ & ? & _)].
  destruct (raw_text data); simpl; [|done].
  by destruct (JSON_parse (strip_fences _)).
Qed.

(** The five headers of a response built by [json]. *)
Lemma json_headers payload code origin :
  headers (json payload code origin) !! js "Access-Control-Allow-Origin"
  = Some (if bool_decide (origin ∈ ALLOWED_ORIGINS) then origin
          else js "https://athumoz.github.io")
  ∧ headers (json payload code origin) !! js "Access-Control-Allow-Methods"
    = Some (js "POST, OPTIONS")
  ∧ headers (json payload code origin) !! js "Access-Control-Allow-Headers"
    = Some (js "Content-Type")
  ∧ headers (json payload code origin) !! js "Access-Control-Max-Age"
    = Some (js "86400")
  ∧ headers (json payload code origin) !! js "Content-Type"
    = Some (js "application/json").
Proof.
  unfold json. cbn [headers]. split; [|split; [|split; [|split]]].
  - apply lookup_union_Some_l. unfold corsHeaders.
    rewrite lookup_insert_eq. reflexivity.
  - apply lookup_union_Some_l. cors_lookup. reflexivity.
  - apply lookup_union_Some_l. cors_lookup. reflexivity.
  - apply lookup_union_Some_l. cors_lookup. reflexivity.
  - rewrite lookup_union_r by apply corsHeaders_no_content_type.
    apply lookup_singleton_eq.
Qed.

(** C6. Every response the handler returns to a request that is not a
    preflight (404, 429, 400, 502 or 200) carries the four CORS headers
    computed from the request's [Origin] header, and
    [Content-Type: application/json].  But two exits of the handler are
    not returns: when the upstream [fetch] rejects, and when the
    upstream service answers 2xx with a body that is not JSON, the
    exception leaves the handler and there is no response to carry any
    header, although the same unparseable body under a status outside
    200..299 is caught and answered 502 with the headers.  Every other
    request is answered. *)
Theorem cors_headers_miss_the_exceptions :
  (∀ now request env σ r,
     method request ≠ js "OPTIONS" →
     completes (fetch now request env σ) = Normal r →
     status r ∈ [404; 429; 400; 502; 200]
     ∧ headers r !! js "Access-Control-Allow-Origin"
       = Some (if bool_decide (origin_of request ∈ ALLOWED_ORIGINS)
               then origin_of request else js "https://athumoz.github.io")
     ∧ headers r !! js "Access-Control-Allow-Methods" = Some (js "POST, OPTIONS")
     ∧ headers r !! js "Access-Control-Allow-Headers" = Some (js "Content-Type")
     ∧ headers r !! js "Access-Control-Max-Age" = Some (js "86400")
     ∧ headers r !! js "Content-Type" = Some (js "application/json"))
  ∧ (∀ now request env σ σ1 query,
       method request = js "POST" →
       url_pathname request = js "/api/query" →
       isRateLimited now (ip_of request) σ = (false, σ1) →
       parse_body (body_text request) = Normal query →
       match global_fetch (gemini_call env query) with
       | None => completes (fetch now request env σ) = Throw NetworkFailure
       | Some geminiRes =>
           JSON_parse (upstream_text geminiRes) = None →
           completes (fetch now request env σ)
           = if ok geminiRes then Throw SyntaxError
             else Normal
                    {| status := 502;
                       headers := corsHeaders (origin_of request)
                                  ∪ {[ js "Content-Type" := js "application/json" ]};
                       body := Some (JSON_stringify
                                       (VObj [ (js "error",
                              VStr (js "Erro ao processar a pergunta. Tente novamente.")) ])) |}
       end)
  ∧ (∀ now request env σ,
       (∀ query, parse_body (body_text request) = Normal query →
                 ∃ geminiRes,
                   global_fetch (gemini_call env query) = Some geminiRes
                   ∧ (ok geminiRes = true →
                      JSON_parse (upstream_text geminiRes) ≠ None)) →
       ∃ r, completes (fetch now request env σ) = Normal r).
Proof.
  split; [|split].
  - intros now request env σ r Hm Hr.
    destruct (fetch_returns_json _ _ _ _ _ Hm Hr) as (payload & code & -> & Hcode).
    split; [exact Hcode|]. apply json_headers.
  - intros now request env σ σ1 query Hm Hp Hadmit Hq.
    rewrite fetch_routed by done. simpl. rewrite Hadmit, Hq.
    destruct (global_fetch (gemini_call env query)) as [geminiRes|]; [|done].
    intros Hbody. destruct (ok geminiRes); simpl; [|done].
    unfold read_json. by rewrite Hbody.
  - intros now request env σ Hup.
    destruct (completes (fetch now request env σ)) as [r|e] eqn:Hc; [by exists r|].
    exfalso. apply fetch_throws in Hc as (_ & _ & _ & query & Hq & Hcall).
    destruct (Hup query Hq) as (geminiRes & Hsome & Hjson).
    rewrite Hsome in Hcall. destruct Hcall as (Hok & Hnone & _). by apply Hjson.
Qed.

(** *** The validator *)

Lemma slice0_nil n s : (0 < n)%nat → slice0 n s = [] ↔ s = [].
Proof.
  unfold slice0. intros Hn. destruct s, n; simpl; try lia; split; congruence.
Qed.

(** A string query is used as it is: trimmed, then cut. *)
Lemma parse_body_string text body s :
  JSON_parse text = Some body →
  Js.get body (js "query") = Normal (VStr s) →
  parse_body text
  = if bool_decide (trim s = []) then Throw (Error (js "empty"))
    else Normal (slice0 500 (trim s)).
Proof.
  intros Hp Hq. unfold parse_body, read_json.
  rewrite Hp. simpl. rewrite Hq. simpl.
  assert (Hor : Js.call_trim (Js.or (VStr s) (VStr (js ""))) = Normal (trim s)).
  { unfold Js.or; simpl. case_bool_decide as Hs; simpl; [by subst | done]. }
  rewrite Hor. simpl.
  rewrite (bool_decide_ext (slice0 500 (trim s) = []) (trim s = []))
    by (apply slice0_nil; lia).
  reflexivity.
Qed.

(** A query that is not a string never gets through: a falsy one
    becomes the empty string and fails the emptiness test, a truthy one
    has no [trim] to call. *)
Lemma parse_body_non_string text body q :
  JSON_parse text = Some body →
  Js.get body (js "query") = Normal q →
  (∀ s, q ≠ VStr s) →
  parse_body text = Throw (if Js.truthy q then TypeError else Error (js "empty")).
Proof.
  intros Hp Hq Hns. unfold parse_body, read_json.
  rewrite Hp. simpl. rewrite Hq. simpl.
  unfold Js.or. destruct (Js.truthy q) eqn:Ht.
  - destruct q; try done. by destruct (Hns s).
  - reflexivity.
Qed.

Lemma parse_body_no_body text :
  JSON_parse text = None → parse_body text = Throw SyntaxError.
Proof.
  intros Hp. unfold parse_body, read_json. by rewrite Hp.
Qed.

Lemma parse_body_no_get text body e :
  JSON_parse text = Some body →
  Js.get body (js "query") = Throw e →
  parse_body text = Throw e.
Proof.
  intros Hp Hq. unfold parse_body, read_json.
  rewrite Hp. simpl. by rewrite Hq.
Qed.

(** The validator fails exactly on the bodies of [invalid_body]. *)
Lemma parse_body_invalid text :
  invalid_body JSON_parse text = true ↔ ∃ e, parse_body text = Throw e.
Proof.
  unfold invalid_body.
  destruct (JSON_parse text) as [body|] eqn:Hp.
  2:{ rewrite parse_body_no_body by done. split; eauto. }
  destruct (Js.get body (js "query")) as [q|e] eqn:Hq.
  2:{ rewrite (parse_body_no_get _ _ _ Hp Hq). split; eauto. }
  assert (Hcase : (∃ s, q = VStr s) ∨ (∀ s, q ≠ VStr s))
    by (destruct q; eauto; right; done).
  destruct Hcase as [[s ->]|Hns].
  - rewrite (parse_body_string _ _ _ Hp Hq).
    case_bool_decide; split; eauto; try done. by intros [? ?].
  - rewrite (parse_body_non_string _ _ _ Hp Hq) by done.
    destruct q; split; eauto. by destruct (Hns s).
Qed.

Lemma parse_body_valid text :
  invalid_body JSON_parse text = false →
  ∃ body s,
    JSON_parse text = Some body
    ∧ Js.get body (js "query") = Normal (VStr s)
    ∧ trim s ≠ []
    ∧ parse_body text = Normal (slice0 500 (trim s)).
Proof.
  unfold invalid_body.
  destruct (JSON_parse text) as [body|] eqn:Hp; [|done].
  destruct (Js.get body (js "query")) as [q|e] eqn:Hq; [|done].
  destruct q; try done. intros Hs. apply bool_decide_eq_false in Hs.
  eexists _, _. split_and!; [done | done | done |].
  rewrite (parse_body_string _ _ _ Hp Hq). by rewrite bool_decide_false.
Qed.

(** A body the validator turns down is answered with 400. *)
Lemma fetch_invalid now request env σ σ1 e :
  method request = js "POST" →
  url_pathname request = js "/api/query" →
  isRateLimited now (ip_of request) σ = (false, σ1) →
  parse_body (body_text request) = Throw e →
  fetch now request env σ
  = respond σ1 [] []
      (json (VObj [ (js "error",
                     VStr (js "Pergunta inválida ou ausente.")) ]) 400 (origin_of request)).
Proof.
  intros Hm Hp Hadmit Hq. rewrite fetch_routed by done. simpl.
  by rewrite Hadmit, Hq.
Qed.

(** A body the validator accepts goes to the upstream service. *)
Lemma fetch_valid now request env σ σ1 query :
  method request = js "POST" →
  url_pathname request = js "/api/query" →
  isRateLimited now (ip_of request) σ = (false, σ1) →
  parse_body (body_text request) = Normal query →
  upstream_calls (fetch now request env σ) = [ gemini_call env query ]
  ∧ ∀ r, completes (fetch now request env σ) = Normal r → status r ∈ [502; 200].
Proof.
  intros Hm Hp Hadmit Hq. rewrite fetch_routed by done. simpl.
  rewrite Hadmit, Hq.
  repeat case_match; simpl; (split; [done|]); intros r [= <-]; simpl; set_solver.
Qed.

(** Whatever the request, a body the validator turns down causes no
    upstream call. *)
Lemma fetch_no_call now request env σ e :
  parse_body (body_text request) = Throw e →
  upstream_calls (fetch now request env σ) = [].
Proof.
  intros Hq.
  destruct (decide (method request = js "OPTIONS")) as [Hopt|Hopt].
  { by rewrite fetch_preflight. }
  destruct (decide (method request = js "POST")) as [Hpost|Hpost];
    [destruct (decide (url_pathname request = js "/api/query")) as [Hpath|Hpath]|].
  - rewrite fetch_routed by done. simpl. rewrite Hq.
    by destruct (isRateLimited now (ip_of request) σ) as [[] σ1].
  - by rewrite fetch_not_found by auto.
  - by rewrite fetch_not_found by auto.
Qed.

(** C3 (amended). For a POST to /api/query that the rate limiter
    admits, the handler answers 400 with an error field exactly when
    the body is not parseable JSON, has no [query] field, has a [query]
    that is not a string, or has a string [query] that is empty once
    trimmed.  Otherwise the query is a string: it is trimmed, then cut
    to its first 500 code units, and the upstream call is issued with
    it; a query of 600 [x] goes upstream as 500 [x]. *)
Theorem query_validation now request env σ σ1 :
  method request = js "POST" →
  url_pathname request = js "/api/query" →
  isRateLimited now (ip_of request) σ = (false, σ1) →
  let text := body_text request in
  let o := fetch now request env σ in
  ((∃ r, completes o = Normal r ∧ status r = 400)
     ↔ invalid_body JSON_parse text = true)
  ∧ (invalid_body JSON_parse text = true →
       o = respond σ1 [] []
             (json (VObj [ (js "error", VStr (js "Pergunta inválida ou ausente.")) ]) 400
                (origin_of request)))
  ∧ (invalid_body JSON_parse text = false →
       ∃ body s,
         JSON_parse text = Some body
         ∧ Js.get body (js "query") = Normal (VStr s)
         ∧ upstream_calls o = [ gemini_call env (slice0 500 (trim s)) ]
         ∧ length (slice0 500 (trim s)) = (length (trim s) `min` 500)%nat)
  ∧ slice0 500 (trim (repeat1 120 600)) = repeat1 120 500.
Proof.
  intros Hm Hp Hadmit text o.
  assert (Hbad : invalid_body JSON_parse text = true →
                 o = respond σ1 [] []
                       (json (VObj [ (js "error",
                                      VStr (js "Pergunta inválida ou ausente.")) ]) 400
                          (origin_of request))).
  { intros Hi. apply parse_body_invalid in Hi as [e He]. by eapply fetch_invalid. }
  assert (Hgood : invalid_body JSON_parse text = false →
            ∃ body s,
              JSON_parse text = Some body
              ∧ Js.get body (js "query") = Normal (VStr s)
              ∧ parse_body text = Normal (slice0 500 (trim s))).
  { intros Hi. destruct (parse_body_valid _ Hi) as (body & s & ? & ? & ? & ?). eauto. }
  split; [|split; [exact Hbad|split]].
  - split.
    + intros (r & Hr & Hst).
      destruct (invalid_body JSON_parse text) eqn:Hi; [done|]. exfalso.
      destruct (Hgood eq_refl) as (body & s & _ & _ & Hq).
      destruct (fetch_valid now request env σ σ1 _ Hm Hp Hadmit Hq) as [_ Hcodes].
      specialize (Hcodes r Hr). rewrite Hst in Hcodes.
      repeat (apply elem_of_cons in Hcodes as [Hcodes|Hcodes]; [done|]).
      by apply elem_of_nil in Hcodes.
    + intros Hi. rewrite (Hbad Hi). eexists. split; [reflexivity | done].
  - intros Hi. destruct (Hgood Hi) as (body & s & Hparse & Hget & Hq).
    exists body, s. split_and!; [done | done | |].
    + by apply (fetch_valid now request env σ σ1 _ Hm Hp Hadmit Hq).
    + unfold slice0. rewrite length_take. lia.
  - vm_compute. reflexivity.
Qed.

(** C8 (amended). For a parseable JSON body with a [query] field, the
    validator does not convert the value: a string is trimmed and cut
    as it is, and any other value (a number, say) is never turned into
    its string form; validation fails on it and no upstream call is
    made. *)
Theorem query_is_never_coerced text body q :
  JSON_parse text = Some body →
  Js.get body (js "query") = Normal q →
  q ≠ VUndefined →
  (∀ s, q = VStr s →
        parse_body text
        = if bool_decide (trim s = []) then Throw (Error (js "empty"))
          else Normal (slice0 500 (trim s)))
  ∧ (json_non_string q = true →
       (∃ e, parse_body text = Throw e)
       ∧ ∀ now request env σ,
           body_text request = text →
           upstream_calls (fetch now request env σ) = []).
Proof.
  intros Hp Hq Hdef. split.
  - intros s ->. by apply (parse_body_string _ _ _ Hp Hq).
  - intros Hns.
    assert (He : parse_body text
                 = Throw (if Js.truthy q then TypeError else Error (js "empty"))).
    { apply (parse_body_non_string _ _ _ Hp Hq). by intros s ->. }
    split; [eauto|]. intros now request env σ <-. by eapply fetch_no_call.
Qed.

(** C9. For a parseable JSON body whose [query] holds a non-string
    JSON value (null, a boolean, a number, an array or an object), the
    validator throws: a falsy value falls through to the empty-query
    check, a truthy one raises a type error for want of a [trim]
    method.  The handler then answers 400 with an error field, and in
    no case issues the upstream call. *)
Theorem non_string_query_is_rejected text body q :
  JSON_parse text = Some body →
  Js.get body (js "query") = Normal q →
  json_non_string q = true →
  parse_body text = Throw (if Js.truthy q then TypeError else Error (js "empty"))
  ∧ (∀ now request env σ,
       body_text request = text →
       upstream_calls (fetch now request env σ) = [])
  ∧ (∀ now request env σ σ1,
       body_text request = text →
       method request = js "POST" →
       url_pathname request = js "/api/query" →
       isRateLimited now (ip_of request) σ = (false, σ1) →
       fetch now request env σ
       = {| completes :=
              Normal {| status := 400;
                        headers := corsHeaders (origin_of request)
                                   ∪ {[ js "Content-Type" := js "application/json" ]};
                        body := Some (JSON_stringify
                                        (VObj [ (js "error",
                                            VStr (js "Pergunta inválida ou ausente.")) ])) |};
            store_after := σ1; console_error := []; upstream_calls := [] |}).
Proof.
  intros Hp Hq Hns.
  assert (He : parse_body text
               = Throw (if Js.truthy q then TypeError else Error (js "empty"))).
  { apply (parse_body_non_string _ _ _ Hp Hq). by intros s ->. }
  split; [exact He | split].
  - intros now request env σ <-. by eapply fetch_no_call.
  - intros now request env σ σ1 <- Hm Hpath Hadmit. by eapply fetch_invalid.
Qed.

(** *** The sanitizer *)

Lemma raw_text_envelope text : raw_text (envelope text) = Normal (trim text).
Proof. reflexivity. Qed.

(** A reply that reached the sanitizer is parsed after the fences are
    stripped, and the handler answers by the outcome of that parse. *)
Lemma fetch_sanitized now request env σ σ1 query geminiRes data rawText :
  method request = js "POST" →
  url_pathname request = js "/api/query" →
  isRateLimited now (ip_of request) σ = (false, σ1) →
  parse_body (body_text request) = Normal query →
  global_fetch (gemini_call env query) = Some geminiRes →
  ok geminiRes = true →
  JSON_parse (upstream_text geminiRes) = Some data →
  raw_text data = Normal rawText →
  fetch now request env σ
  = respond σ1 [] [ gemini_call env query ]
      match JSON_parse (strip_fences rawText) with
      | Some parsed => json parsed 200 (origin_of request)
      | None =>
          json (VObj [ (js "error",
                        VStr (js "Não foi possível interpretar a resposta. Tente novamente.")) ])
            502 (origin_of request)
      end.
Proof.
  intros Hm Hp Hadmit Hq Hcall Hok Hdata Hraw.
  rewrite fetch_routed by done. simpl.
  rewrite Hadmit, Hq, Hcall, Hok. simpl. unfold read_json. rewrite Hdata, Hraw.
  destruct (JSON_parse (strip_fences rawText)); reflexivity.
Qed.

(** C4. The sanitizer trims the candidate text, strips an opening
    fence (three backticks, with or without a [json] tag in any case,
    and the whitespace after it) and a closing fence (the whitespace
    before three backticks at the end) where present, trims again, and
    hands the result to [JSON.parse]: the text of the example comes out
    as [{"a":1}].  When the cleaned text parses, the handler answers 200
    with the parsed value; when it does not, it answers 502 with the
    could-not-interpret message, which differs from the messages of the
    other 502 answers. *)
Theorem fenced_reply_is_parsed :
  (∀ text, raw_text (envelope text) = Normal (trim text))
  ∧ (∀ w1 w2 mo mc t,
       all_ws w1 → all_ws w2 → bare t → open_marker mo t → close_marker mc →
       strip_fences (trim (w1 ++ mo ++ t ++ mc ++ w2)) = t)
  ∧ strip_fences (trim example_reply) = jsq "{'a':1}"
  ∧ (∀ now request env σ σ1 query geminiRes data rawText,
       method request = js "POST" →
       url_pathname request = js "/api/query" →
       isRateLimited now (ip_of request) σ = (false, σ1) →
       parse_body (body_text request) = Normal query →
       global_fetch (gemini_call env query) = Some geminiRes →
       ok geminiRes = true →
       JSON_parse (upstream_text geminiRes) = Some data →
       raw_text data = Normal rawText →
       fetch now request env σ
       = {| completes :=
              Normal
                match JSON_parse (strip_fences rawText) with
                | Some parsed =>
                    {| status := 200;
                       headers := corsHeaders (origin_of request)
                                  ∪ {[ js "Content-Type" := js "application/json" ]};
                       body := Some (JSON_stringify parsed) |}
                | None =>
                    {| status := 502;
                       headers := corsHeaders (origin_of request)
                                  ∪ {[ js "Content-Type" := js "application/json" ]};
                       body := Some (JSON_stringify
                                       (VObj [ (js "error",
                   VStr (js "Não foi possível interpretar a resposta. Tente novamente.")) ])) |}
                end;
            store_after := σ1; console_error := [];
            upstream_calls := [ gemini_call env query ] |})
  ∧ js "Não foi possível interpretar a resposta. Tente novamente."
    ≠ js "Erro ao processar a pergunta. Tente novamente."
  ∧ js "Não foi possível interpretar a resposta. Tente novamente."
    ≠ js "Resposta inesperada do servidor.".
Proof.
  split; [exact raw_text_envelope|].
  split; [exact strip_fences_fenced|].
  split; [vm_compute; reflexivity|].
  split.
  - intros now request env σ σ1 query geminiRes data rawText
           Hm Hp Hadmit Hq Hcall Hok Hdata Hraw.
    rewrite (fetch_sanitized _ _ _ _ _ _ _ _ _ Hm Hp Hadmit Hq Hcall Hok Hdata Hraw).
    by destruct (JSON_parse (strip_fences rawText)).
  - split; vm_compute; discriminate.
Qed.

End HandlerProperties.

(** ** The handler at work *)

Ltac by_computation := vm_compute; reflexivity.

Local Abbreviation run upstream request :=
  (fetch Mini.parse Mini.stringify upstream 0 request example_env empty_store).

Lemma example_post_admitted origin body :
  isRateLimited 0 (ip_of (example_post origin body)) empty_store
  = (false, first_call_store).
Proof. by_computation. Qed.

(** A preflight to any path, after [client_a] has already called. *)
Lemma preflight_short_circuits_witness :
  let request := {| method := js "OPTIONS"; url_pathname := js "/anything";
                    headers_get := λ _, None; body_text := js "" |} in
  fetch Mini.parse Mini.stringify (upstream_answers 200 (js "")) 0 request example_env
    first_call_store
  = {| completes := Normal {| status := 204;
                              headers := corsHeaders (origin_of request);
                              body := None |};
       store_after := first_call_store; console_error := []; upstream_calls := [] |}.
Proof.
  intros request.
  apply (preflight_short_circuits Mini.parse Mini.stringify
           (upstream_answers 200 (js "")) 0 request example_env first_call_store).
  reflexivity.
Defined.

(** A question while the upstream service answers with a page that is
    not JSON, under the statuses 200 and 500, and while it cannot be
    reached; and a stray GET. *)
Lemma cors_headers_miss_the_exceptions_witness :
  let request := example_post (Some site_origin) question in
  let r := json Mini.stringify (VObj [ (js "error", VStr (js "Not found")) ]) 404
             (js "") in
  completes (run (upstream_answers 200 (js "<html>")) request) = Throw SyntaxError
  ∧ completes (run (upstream_answers 500 (js "<html>")) request)
    = Normal {| status := 502;
                headers := corsHeaders (origin_of request)
                           ∪ {[ js "Content-Type" := js "application/json" ]};
                body := Some (Mini.stringify
                                (VObj [ (js "error",
                              VStr (js "Erro ao processar a pergunta. Tente novamente.")) ])) |}
  ∧ completes (run upstream_down request) = Throw NetworkFailure
  ∧ (status r ∈ [404; 429; 400; 502; 200]
     ∧ headers r !! js "Access-Control-Allow-Origin"
       = Some (if bool_decide (origin_of example_get ∈ ALLOWED_ORIGINS)
               then origin_of example_get else js "https://athumoz.github.io")
     ∧ headers r !! js "Access-Control-Allow-Methods" = Some (js "POST, OPTIONS")
     ∧ headers r !! js "Access-Control-Allow-Headers" = Some (js "Content-Type")
     ∧ headers r !! js "Access-Control-Max-Age" = Some (js "86400")
     ∧ headers r !! js "Content-Type" = Some (js "application/json")).
Proof.
  intros request r.
  destruct (cors_headers_miss_the_exceptions Mini.parse Mini.stringify
              (upstream_answers 200 (js "<html>"))) as (_ & H200 & _).
  destruct (cors_headers_miss_the_exceptions Mini.parse Mini.stringify
              (upstream_answers 500 (js "<html>"))) as (_ & H500 & _).
  destruct (cors_headers_miss_the_exceptions Mini.parse Mini.stringify upstream_down)
    as (Hcors & Hdown & _).
  split; [|split; [|split]].
  - apply (H200 0 request example_env empty_store first_call_store
             (js "Qual é o orçamento do MINED para 2026?")); by_computation.
  - apply (H500 0 request example_env empty_store first_call_store
             (js "Qual é o orçamento do MINED para 2026?")); by_computation.
  - apply (Hdown 0 request example_env empty_store first_call_store
             (js "Qual é o orçamento do MINED para 2026?")); by_computation.
  - apply (Hcors 0 example_get example_env empty_store r);
      [vm_compute; discriminate | by_computation].
Defined.

(** The same question from the allowed origin and from another one. *)
Lemma cors_origin_resolution_witness :
  let upstream := upstream_answers 200 (Mini.stringify (envelope example_reply)) in
  corsHeaders site_origin !! ACAO = Some site_origin
  ∧ corsHeaders other_origin !! ACAO = ALLOWED_ORIGINS !! 0%nat
  ∧ same_but_headers (run upstream (example_post (Some site_origin) question))
                     (run upstream (example_post (Some other_origin) question)).
Proof.
  intros upstream.
  destruct (cors_origin_resolution Mini.parse Mini.stringify upstream)
    as (Hin & Hout & _ & _ & _ & Hsame).
  split; [|split].
  - apply Hin. apply (bool_decide_unpack _). vm_compute. exact I.
  - apply Hout. intros Hel. apply (bool_decide_pack _) in Hel.
    vm_compute in Hel. exact Hel.
  - apply Hsame.
    split; [by_computation | split; [by_computation | split; [by_computation|]]].
    intros name Hname. simpl.
    rewrite !(bool_decide_false (name = js "Origin")) by exact Hname. reflexivity.
Defined.

(** The upstream service answers 500 with a body that is JSON. *)
Lemma upstream_failure_is_502_witness :
  let geminiRes := {| upstream_status := 500;
                      upstream_text := jsq "{'error': 'quota'}" |} in
  let upstream := upstream_answers 500 (jsq "{'error': 'quota'}") in
  let request := example_post (Some site_origin) question in
  let query := js "Qual é o orçamento do MINED para 2026?" in
  run upstream request
  = {| completes :=
         Normal {| status := 502;
                   headers := corsHeaders (origin_of request)
                              ∪ {[ js "Content-Type" := js "application/json" ]};
                   body := Some (Mini.stringify
                                   (VObj [ (js "error",
                             VStr (js "Erro ao processar a pergunta. Tente novamente.")) ])) |};
       store_after := first_call_store;
       console_error :=
         [ {| log_label := js "Gemini error:";
              log_status := upstream_status geminiRes;
              log_err := match Mini.parse (upstream_text geminiRes) with
                         | Some err => err
                         | None => VObj []
                         end |} ];
       upstream_calls := [ gemini_call Mini.stringify example_env query ] |}.
Proof.
  intros geminiRes upstream request query.
  apply (upstream_failure_is_502 Mini.parse Mini.stringify upstream 0 request
           example_env empty_store first_call_store query geminiRes);
    by_computation.
Defined.

(** A query of 600 [x] reaches the upstream service as 500 [x]. *)
Lemma query_validation_witness :
  let upstream := upstream_answers 200 (Mini.stringify (envelope example_reply)) in
  let request := example_post None long_question in
  invalid_body Mini.parse (body_text request) = false
  ∧ upstream_calls (run upstream request)
    = [ gemini_call Mini.stringify example_env (repeat1 120 500) ].
Proof.
  intros upstream request.
  assert (Hvalid : invalid_body Mini.parse (body_text request) = false)
    by by_computation.
  split; [exact Hvalid|].
  destruct (query_validation Mini.parse Mini.stringify upstream 0 request
              example_env empty_store first_call_store
              ltac:(by_computation) ltac:(by_computation) ltac:(by_computation))
    as (_ & _ & Hgood & _).
  destruct (Hgood Hvalid) as (body & s & Hparse & Hget & Hcalls & _).
  vm_compute in Hparse. injection Hparse as <-.
  vm_compute in Hget. injection Hget as <-.
  rewrite Hcalls. by_computation.
Defined.

(** The specification's example reply, end to end, and a reply that is
    not JSON. *)
Lemma fenced_reply_is_parsed_witness :
  let request := example_post (Some site_origin) question in
  let query := js "Qual é o orçamento do MINED para 2026?" in
  run (upstream_answers 200 (Mini.stringify (envelope example_reply))) request
  = {| completes :=
         Normal {| status := 200;
                   headers := corsHeaders (origin_of request)
                              ∪ {[ js "Content-Type" := js "application/json" ]};
                   body := Some (Mini.stringify (VObj [ (js "a", VNum 1) ])) |};
       store_after := first_call_store; console_error := [];
       upstream_calls := [ gemini_call Mini.stringify example_env query ] |}
  ∧ run (upstream_answers 200 (Mini.stringify (envelope (js "not json")))) request
    = {| completes :=
           Normal {| status := 502;
                     headers := corsHeaders (origin_of request)
                                ∪ {[ js "Content-Type" := js "application/json" ]};
                     body := Some (Mini.stringify
                                     (VObj [ (js "error",
                  VStr (js "Não foi possível interpretar a resposta. Tente novamente.")) ])) |};
         store_after := first_call_store; console_error := [];
         upstream_calls := [ gemini_call Mini.stringify example_env query ] |}.
Proof.
  intros request query.
  destruct (fenced_reply_is_parsed Mini.parse Mini.stringify
              (upstream_answers 200 (Mini.stringify (envelope example_reply))))
    as (_ & _ & _ & Hfenced & _).
  destruct (fenced_reply_is_parsed Mini.parse Mini.stringify
              (upstream_answers 200 (Mini.stringify (envelope (js "not json")))))
    as (_ & _ & _ & Hplain & _).
  split.
  - rewrite (Hfenced 0 request example_env empty_store first_call_store query
               {| upstream_status := 200;
                  upstream_text := Mini.stringify (envelope example_reply) |}
               (envelope example_reply) (trim example_reply)) by by_computation.
    replace (Mini.parse (strip_fences (trim example_reply)))
      with (Some (VObj [ (js "a", VNum 1) ])) by by_computation.
    reflexivity.
  - rewrite (Hplain 0 request example_env empty_store first_call_store query
               {| upstream_status := 200;
                  upstream_text := Mini.stringify (envelope (js "not json")) |}
               (envelope (js "not json")) (trim (js "not json"))) by by_computation.
    replace (Mini.parse (strip_fences (trim (js "not json"))))
      with (@None value) by by_computation.
    reflexivity.
Defined.

(** A number where the query should be. *)
Lemma query_is_never_coerced_witness :
  (∃ e, parse_body Mini.parse number_question = Throw e)
  ∧ ∀ now request env σ,
      body_text request = number_question →
      upstream_calls (fetch Mini.parse Mini.stringify (upstream_answers 200 (js ""))
                        now request env σ) = [].
Proof.
  apply (query_is_never_coerced Mini.parse Mini.stringify (upstream_answers 200 (js ""))
           number_question (VObj [ (js "query", VNum 5) ]) (VNum 5));
    [by_computation | by_computation | discriminate | reflexivity].
Defined.

(** [null] where the query should be. *)
Lemma non_string_query_is_rejected_witness :
  parse_body Mini.parse null_question = Throw (Error (js "empty"))
  ∧ run (upstream_answers 200 (js "")) (example_post None null_question)
    = {| completes :=
           Normal {| status := 400;
                     headers := corsHeaders (origin_of (example_post None null_question))
                                ∪ {[ js "Content-Type" := js "application/json" ]};
                     body := Some (Mini.stringify
                                     (VObj [ (js "error",
                                              VStr (js "Pergunta inválida ou ausente.")) ])) |};
         store_after := first_call_store; console_error := []; upstream_calls := [] |}.
Proof.
  destruct (non_string_query_is_rejected Mini.parse Mini.stringify
              (upstream_answers 200 (js ""))
              null_question (VObj [ (js "query", VNull) ]) VNull)
    as (Hthrow & _ & H400); [by_computation | by_computation | reflexivity |].
  split; [exact Hthrow|].
  apply H400; by_computation.
Defined.

(** A successful upstream answer that is not JSON: the handler throws
    and returns no response. *)
Example unparseable_success_makes_the_handler_throw :
  completes (run (upstream_answers 200 (js "<html>"))
               (example_post (Some site_origin) question))
  = Throw SyntaxError.
Proof. by_computation. Qed.

(** *** Where the specification and the code part *)

(** C3 as stated fails: the body [{"query": 5}] is parseable, has a
    [query] field, and its query is not empty after trimming, yet the
    handler answers 400. *)
Lemma listed_conditions_counterexample :
  let upstream := upstream_answers 200 (js "") in
  let request := example_post None number_question in
  Mini.parse number_question = Some (VObj [ (js "query", VNum 5) ])
  ∧ listed_invalid Mini.parse number_question = false
  ∧ completes (run upstream request)
    = Normal (json Mini.stringify (VObj [ (js "error",
                                           VStr (js "Pergunta inválida ou ausente.")) ])
                400 (js ""))
  ∧ ¬ ((∃ r, completes (run upstream request) = Normal r ∧ status r = 400)
       ↔ listed_invalid Mini.parse (body_text request) = true).
Proof.
  intros upstream request.
  assert (H400 : completes (run upstream request)
                 = Normal (json Mini.stringify
                             (VObj [ (js "error",
                                     VStr (js "Pergunta inválida ou ausente.")) ]) 400 (js "")))
    by by_computation.
  split; [by_computation|]. split; [by_computation|]. split; [exact H400|].
  intros [Hiff _].
  assert (Hlisted : listed_invalid Mini.parse (body_text request) = true).
  { apply Hiff. eexists. split; [exact H400 | reflexivity]. }
  vm_compute in Hlisted. discriminate.
Qed.

(** C8 as stated fails: the number 5 is not converted to the string
    ["5"]; the validator throws a type error, the handler answers 400
    and nothing goes upstream. *)
Lemma coercion_counterexample :
  let upstream := upstream_answers 200 (js "") in
  let request := example_post None number_question in
  Mini.parse number_question = Some (VObj [ (js "query", VNum 5) ])
  ∧ parse_body Mini.parse number_question = Throw TypeError
  ∧ parse_body Mini.parse number_question ≠ Normal (js "5")
  ∧ completes (run upstream request)
    = Normal (json Mini.stringify (VObj [ (js "error",
                                           VStr (js "Pergunta inválida ou ausente.")) ])
                400 (js ""))
  ∧ upstream_calls (run upstream request) = [].
Proof.
  intros upstream request.
  assert (Hthrow : parse_body Mini.parse number_question = Throw TypeError)
    by by_computation.
  split; [by_computation|]. split; [exact Hthrow|].
  split; [rewrite Hthrow; discriminate|].
  split; by_computation.
Qed.

(** C5 as stated fails: when the upstream service answers 500 with the
    body [boom], the logged line holds the status and the empty object;
    the body is not in the log, neither as text nor parsed, and the log
    is the one a different body leaves. *)
Lemma raw_error_body_counterexample :
  let request := example_post (Some site_origin) question in
  let o := run (upstream_answers 500 (js "boom")) request in
  (∃ r, completes o = Normal r ∧ status r = 502)
  ∧ console_error o
    = [ {| log_label := js "Gemini error:"; log_status := 500; log_err := VObj [] |} ]
  ∧ ¬ logs_upstream_body Mini.parse o (js "boom")
  ∧ console_error o = console_error (run (upstream_answers 500 (js "bang")) request).
Proof.
  intros request o.
  assert (Hlog : console_error o
                 = [ {| log_label := js "Gemini error:"; log_status := 500;
                        log_err := VObj [] |} ]) by by_computation.
  split; [eexists; split; [by_computation | reflexivity]|].
  split; [exact Hlog|]. split; [|by_computation].
  intros (line & Hin & Hbody). rewrite Hlog in Hin.
  apply list_elem_of_singleton in Hin. subst line.
  destruct Hbody as [Hraw | Hparsed]; [discriminate Hraw|].
  vm_compute in Hparsed. discriminate Hparsed.
Qed.

(** * Further properties *)

(** ** The stages of the handler *)

Section Stages.

Variable JSON_parse : list N -> option value.
Variable JSON_stringify : value -> list N.
Variable global_fetch : FetchInit -> option UpstreamResponse.

Local Abbreviation fetch := (fetch JSON_parse JSON_stringify global_fetch).
Local Abbreviation json := (json JSON_stringify).
Local Abbreviation parse_body := (parse_body JSON_parse).
Local Abbreviation gemini_call := (gemini_call JSON_stringify).

Implicit Types (request : Request) (env : Env) (σ : store) (now : Z).

Local Ltac in_list :=
  solve [ repeat first [ apply list_elem_of_here | apply list_elem_of_further ] ].

Lemma routed_true request :
  routed request = true ↔
  method request = js "POST" ∧ url_pathname request = js "/api/query".
Proof.
  unfold routed. rewrite andb_true_iff, !bool_decide_eq_true. done.
Qed.

Lemma routed_false request :
  routed request = false ↔
  method request ≠ js "POST" ∨ url_pathname request ≠ js "/api/query".
Proof.
  unfold routed. rewrite andb_false_iff, !bool_decide_eq_false. done.
Qed.

(** The status of a response to a routed request. *)
Lemma fetch_routed_status now request env σ r :
  routed request = true →
  completes (fetch now request env σ) = Normal r →
  status r ∈ [429; 400; 502; 200].
Proof.
  intros [Hm Hp]%routed_true. rewrite (fetch_routed _ _ _ _ _ _ _ Hm Hp). simpl.
  destruct (isRateLimited now (ip_of request) σ) as [[] σ1]; simpl.
  { intros [= <-]. simpl. in_list. }
  repeat case_match; simpl; intros [= <-]; simpl; in_list.
Qed.

(** X1. A request that is neither a preflight nor a POST to /api/query
    is answered 404 with the body [{ error: 'Not found' }]; the
    rate-limit table is not touched, nothing is logged and nothing goes
    upstream.  No other request is answered 404. *)
Theorem not_found_exactly_off_route now request env σ :
  (method request ≠ js "OPTIONS" → routed request = false →
   fetch now request env σ
   = {| completes :=
          Normal {| status := 404;
                    headers := corsHeaders (origin_of request)
                               ∪ {[ js "Content-Type" := js "application/json" ]};
                    body := Some (JSON_stringify (VObj [ (js "error",
                                                          VStr (js "Not found")) ])) |};
        store_after := σ; console_error := []; upstream_calls := [] |})
  ∧ (∀ r, completes (fetch now request env σ) = Normal r → status r = 404 →
          method request ≠ js "OPTIONS" ∧ routed request = false).
Proof.
  split.
  - intros Hopt Hr%routed_false. by apply fetch_not_found.
  - intros r Hr Hst.
    destruct (decide (method request = js "OPTIONS")) as [Hopt|Hopt].
    { rewrite fetch_preflight in Hr by done. injection Hr as <-. done. }
    split; [done|]. destruct (routed request) eqn:Hrt; [|done]. exfalso.
    pose proof (fetch_routed_status _ _ _ _ _ Hrt Hr) as Hin. rewrite Hst in Hin.
    repeat (apply elem_of_cons in Hin as [Hin|Hin]; [done|]).
    by apply elem_of_nil in Hin.
Qed.

Lemma fetch_store_after now request env σ :
  store_after (fetch now request env σ)
  = if routed request then (isRateLimited now (ip_of request) σ).2 else σ.
Proof.
  destruct (routed request) eqn:Hrt.
  - apply routed_true in Hrt as [Hm Hp]. rewrite fetch_routed by done. simpl.
    destruct (isRateLimited now (ip_of request) σ) as [[] σ1]; simpl; [done|].
    by repeat case_match.
  - apply routed_false in Hrt.
    destruct (decide (method request = js "OPTIONS")) as [Hopt|Hopt].
    + by rewrite fetch_preflight.
    + by rewrite fetch_not_found.
Qed.

(** X2. The rate limiter runs exactly for the POSTs to /api/query, once
    each, before the body is looked at: whatever becomes of such a
    request (429, 400, 502, 200 or an exception) the table it leaves is
    the one [isRateLimited] returns for its client key; after any other
    request the table is as before. *)
Theorem budget_is_spent_on_route now request env σ :
  store_after (fetch now request env σ)
  = if routed request then (isRateLimited now (ip_of request) σ).2 else σ.
Proof. apply fetch_store_after. Qed.

Lemma fetch_429 now request env σ :
  (∃ r, completes (fetch now request env σ) = Normal r ∧ status r = 429)
  ↔ routed request = true ∧ (isRateLimited now (ip_of request) σ).1 = true.
Proof.
  split.
  - intros (r & Hr & Hst).
    destruct (decide (method request = js "OPTIONS")) as [Hopt|Hopt].
    { rewrite fetch_preflight in Hr by done. injection Hr as <-. done. }
    destruct (routed request) eqn:Hrt.
    2:{ apply routed_false in Hrt. rewrite fetch_not_found in Hr by done.
        injection Hr as <-. done. }
    split; [done|]. apply routed_true in Hrt as [Hm Hp].
    rewrite fetch_routed in Hr by done. simpl in Hr.
    destruct (isRateLimited now (ip_of request) σ) as [[] σ1]; simpl in *; [done|].
    exfalso. revert Hr. repeat case_match; simpl; intros [= <-]; done.
  - intros [[Hm Hp]%routed_true Hl]. rewrite fetch_routed by done. simpl.
    destruct (isRateLimited now (ip_of request) σ) as [l σ1]. simpl in Hl. subst l.
    eexists. split; [reflexivity | done].
Qed.

(** X3. A POST to /api/query is answered 429 exactly when
    [isRateLimited] says so; the answer carries the fixed retry
    message, the body of the request is not read and nothing goes
    upstream.  No other request is answered 429. *)
Theorem too_many_requests_exactly_when_limited now request env σ :
  (routed request = true → (isRateLimited now (ip_of request) σ).1 = true →
   fetch now request env σ
   = {| completes :=
          Normal {| status := 429;
                    headers := corsHeaders (origin_of request)
                               ∪ {[ js "Content-Type" := js "application/json" ]};
                    body := Some (JSON_stringify
                                    (VObj [ (js "error",
                           VStr (js "Demasiados pedidos. Tente novamente em 1 minuto.")) ])) |};
        store_after := (isRateLimited now (ip_of request) σ).2;
        console_error := []; upstream_calls := [] |})
  ∧ (∀ r, completes (fetch now request env σ) = Normal r → status r = 429 →
          routed request = true ∧ (isRateLimited now (ip_of request) σ).1 = true).
Proof.
  split.
  - intros [Hm Hp]%routed_true Hl. rewrite fetch_routed by done. simpl.
    destruct (isRateLimited now (ip_of request) σ) as [l σ1]. simpl in Hl. by subst l.
  - intros r Hr Hst.
    destruct (decide (method request = js "OPTIONS")) as [Hopt|Hopt].
    { rewrite fetch_preflight in Hr by done. injection Hr as <-. done. }
    destruct (routed request) eqn:Hrt.
    2:{ apply routed_false in Hrt. rewrite fetch_not_found in Hr by done.
        injection Hr as <-. done. }
    split; [done|]. apply routed_true in Hrt as [Hm Hp].
    rewrite fetch_routed in Hr by done. simpl in Hr.
    destruct (isRateLimited now (ip_of request) σ) as [[] σ1]; simpl in *; [done|].
    exfalso. revert Hr. repeat case_match; simpl; intros [= <-]; done.
Qed.

(** X4. The handler calls the upstream service at most once per
    request and never retries: it calls it exactly for a POST to
    /api/query that the rate limiter admits and whose body passes
    validation, and the call is built from the environment and the
    validated query alone. *)
Theorem upstream_is_called_once_if_valid now request env σ :
  upstream_calls (fetch now request env σ)
  = if routed request && negb (isRateLimited now (ip_of request) σ).1 then
      match parse_body (body_text request) with
      | Normal query => [ gemini_call env query ]
      | Throw _ => []
      end
    else [].
Proof.
  destruct (routed request) eqn:Hrt; simpl.
  - apply routed_true in Hrt as [Hm Hp]. rewrite fetch_routed by done. simpl.
    destruct (isRateLimited now (ip_of request) σ) as [[] σ1]; simpl; [done|].
    by repeat case_match.
  - apply routed_false in Hrt.
    destruct (decide (method request = js "OPTIONS")) as [Hopt|Hopt].
    + by rewrite fetch_preflight.
    + by rewrite fetch_not_found.
Qed.

(** X5. The handler logs exactly when the upstream service answers
    with a status outside 200..299, and then one line: the label, the
    upstream status and the parsed error body, or the empty object when
    that body is not JSON.  In every other case, the two exceptions
    included, nothing is logged. *)
Theorem logs_only_upstream_failures now request env σ :
  console_error (fetch now request env σ)
  = if routed request && negb (isRateLimited now (ip_of request) σ).1 then
      match parse_body (body_text request) with
      | Normal query =>
          match global_fetch (gemini_call env query) with
          | Some geminiRes =>
              if ok geminiRes then []
              else [ {| log_label := js "Gemini error:";
                        log_status := upstream_status geminiRes;
                        log_err := match JSON_parse (upstream_text geminiRes) with
                                   | Some err => err
                                   | None => VObj []
                                   end |} ]
          | None => []
          end
      | Throw _ => []
      end
    else [].
Proof.
  destruct (routed request) eqn:Hrt; simpl.
  - apply routed_true in Hrt as [Hm Hp]. rewrite fetch_routed by done. simpl.
    destruct (isRateLimited now (ip_of request) σ) as [[] σ1]; simpl; [done|].
    destruct (parse_body (body_text request)) as [query|]; simpl; [|done].
    destruct (global_fetch (gemini_call env query)) as [geminiRes|]; simpl; [|done].
    destruct (ok geminiRes); simpl.
    + by repeat case_match.
    + by destruct (JSON_parse (upstream_text geminiRes)).
  - apply routed_false in Hrt.
    destruct (decide (method request = js "OPTIONS")) as [Hopt|Hopt].
    + by rewrite fetch_preflight.
    + by rewrite fetch_not_found.
Qed.

(** X6. A 200 answer is never made up: it is returned only for an
    admitted POST to /api/query with a valid query, after the upstream
    service answered 2xx with a JSON envelope that holds a candidate
    text, and that text, once the fences are stripped, parsed as JSON;
    the body of the answer is that parsed value, serialized. *)
Theorem success_comes_from_upstream now request env σ r :
  completes (fetch now request env σ) = Normal r →
  status r = 200 →
  routed request = true
  ∧ (isRateLimited now (ip_of request) σ).1 = false
  ∧ ∃ query geminiRes data rawText parsed,
      parse_body (body_text request) = Normal query
      ∧ global_fetch (gemini_call env query) = Some geminiRes
      ∧ ok geminiRes = true
      ∧ JSON_parse (upstream_text geminiRes) = Some data
      ∧ raw_text data = Normal rawText
      ∧ JSON_parse (strip_fences rawText) = Some parsed
      ∧ body r = Some (JSON_stringify parsed)
      ∧ upstream_calls (fetch now request env σ) = [ gemini_call env query ].
Proof.
  intros Hr Hst.
  destruct (decide (method request = js "OPTIONS")) as [Hopt|Hopt].
  { rewrite fetch_preflight in Hr by done. injection Hr as <-. done. }
  destruct (routed request) eqn:Hrt.
  2:{ apply routed_false in Hrt. rewrite fetch_not_found in Hr by done.
      injection Hr as <-. done. }
  split; [done|]. apply routed_true in Hrt as [Hm Hp].
  revert Hr. rewrite fetch_routed by done. simpl.
  destruct (isRateLimited now (ip_of request) σ) as [[] σ1]; simpl.
  { intros [= <-]. done. }
  intros Hr. split; [done|]. revert Hr.
  destruct (parse_body (body_text request)) as [query|] eqn:Hq; simpl.
  2:{ intros [= <-]. done. }
  destruct (global_fetch (gemini_call env query)) as [geminiRes|] eqn:Hcall; simpl; [|done].
  destruct (ok geminiRes) eqn:Hok; simpl.
  2:{ intros [= <-]. done. }
  unfold read_json.
  destruct (JSON_parse (upstream_text geminiRes)) as [data|] eqn:Hdata; simpl; [|done].
  destruct (raw_text data) as [rawText|] eqn:Hraw; simpl.
  2:{ intros [= <-]. done. }
  destruct (JSON_parse (strip_fences rawText)) as [parsed|] eqn:Hparsed; simpl.
  2:{ intros [= <-]. done. }
  intros [= <-]. exists query, geminiRes, data, rawText, parsed.
  by repeat (split; [done|]).
Qed.

(** X7. When the upstream service answers 2xx with JSON that does not
    hold a candidate text (the body is [null], there is no [candidates]
    property, the candidate list is empty, or the text is not a
    string), reading the text throws inside the second [try] block and
    the handler answers 502 with the unexpected-answer message; the
    call was made, nothing is logged. *)
Theorem missing_candidate_text_is_502 :
  raw_text VNull = Throw TypeError
  ∧ (∀ data, Js.get data (js "candidates") = Normal VUndefined →
             raw_text data = Throw TypeError)
  ∧ (∀ data, Js.get data (js "candidates") = Normal (VArr []) →
             raw_text data = Throw TypeError)
  ∧ (∀ text, (∀ s, text ≠ VStr s) → raw_text (envelope_of text) = Throw TypeError)
  ∧ (∀ s, raw_text (envelope_of (VStr s)) = Normal (trim s))
  ∧ (∀ now request env σ σ1 query geminiRes data e,
       routed request = true →
       isRateLimited now (ip_of request) σ = (false, σ1) →
       parse_body (body_text request) = Normal query →
       global_fetch (gemini_call env query) = Some geminiRes →
       ok geminiRes = true →
       JSON_parse (upstream_text geminiRes) = Some data →
       raw_text data = Throw e →
       fetch now request env σ
       = {| completes :=
              Normal {| status := 502;
                        headers := corsHeaders (origin_of request)
                                   ∪ {[ js "Content-Type" := js "application/json" ]};
                        body := Some (JSON_stringify
                                        (VObj [ (js "error",
                                           VStr (js "Resposta inesperada do servidor.")) ])) |};
            store_after := σ1; console_error := [];
            upstream_calls := [ gemini_call env query ] |}).
Proof.
  split; [reflexivity|].
  split; [intros data Hc; unfold raw_text; by rewrite Hc|].
  split; [intros data Hc; unfold raw_text; by rewrite Hc|].
  split; [intros text Hns; destruct text; try reflexivity; by destruct (Hns s)|].
  split; [reflexivity|].
  intros now request env σ σ1 query geminiRes data e [Hm Hp]%routed_true
    Hadmit Hq Hcall Hok Hdata Hraw.
  rewrite fetch_routed by done. simpl.
  rewrite Hadmit, Hq, Hcall, Hok. simpl. unfold read_json. by rewrite Hdata, Hraw.
Qed.

Lemma trimStart_head_not_ws s c : head (trimStart s) = Some c → is_ws c = false.
Proof.
  induction s as [|a s IH]; simpl; [done|].
  destruct (is_ws a) eqn:Ha; [done|]. simpl. by intros [= <-].
Qed.

Lemma trimEnd_split u : ∃ w, all_ws w ∧ u = trimEnd u ++ w.
Proof.
  destruct (trimStart_split (reverse u)) as (w & Hw & Hsplit).
  exists (reverse w). split; [by apply Forall_reverse|].
  unfold trimEnd. rewrite <- reverse_app, <- Hsplit. by rewrite reverse_involutive.
Qed.

Lemma trimEnd_last_not_ws u c : last (trimEnd u) = Some c → is_ws c = false.
Proof. unfold trimEnd. rewrite last_reverse. apply trimStart_head_not_ws. Qed.

(** What [trim] leaves starts and ends with a character that is not
    whitespace. *)
Lemma trim_ends s :
  trim s ≠ [] →
  ∃ a b, head (trim s) = Some a ∧ last (trim s) = Some b
         ∧ is_ws a = false ∧ is_ws b = false.
Proof.
  intros Hne. unfold trim in *.
  destruct (trimEnd_split (trimStart s)) as (w & Hw & Hsplit).
  destruct (trimEnd (trimStart s)) as [|a t] eqn:Ht; [done|].
  destruct (last (a :: t)) as [b|] eqn:Hb.
  2:{ by apply last_None in Hb. }
  exists a, b. split_and!; [done | done | |].
  - apply (trimStart_head_not_ws s). by rewrite Hsplit.
  - apply (trimEnd_last_not_ws (trimStart s)). by rewrite Ht.
Qed.

(** X8. The query the validator lets through is never empty, is at
    most 500 code units long and starts with a character that is not
    whitespace; it is the trimmed [query] string of the body, whole
    when that is at most 500 units long (and then it does not end with
    whitespace either), otherwise its first 500 units. *)
Theorem validated_query_shape text query :
  parse_body text = Normal query →
  query ≠ []
  ∧ (length query ≤ 500)%nat
  ∧ (∃ c, head query = Some c ∧ is_ws c = false)
  ∧ ∃ body s,
      JSON_parse text = Some body
      ∧ Js.get body (js "query") = Normal (VStr s)
      ∧ query = slice0 500 (trim s)
      ∧ ((length (trim s) ≤ 500)%nat →
         query = trim s ∧ ∃ c, last query = Some c ∧ is_ws c = false)
      ∧ ((500 < length (trim s))%nat → length query = 500%nat).
Proof.
  intros Hq.
  assert (Hvalid : invalid_body JSON_parse text = false).
  { destruct (invalid_body JSON_parse text) eqn:Hi; [|done].
    apply parse_body_invalid in Hi as [e He]. congruence. }
  destruct (parse_body_valid _ _ Hvalid) as (body & s & Hparse & Hget & Hne & Hq').
  assert (query = slice0 500 (trim s)) as -> by congruence.
  destruct (trim_ends s Hne) as (a & b & Ha & Hb & Hwa & Hwb).
  unfold slice0. split_and!.
  - destruct (trim s); [done|]. done.
  - rewrite length_take. lia.
  - exists a. split; [|done]. destruct (trim s); [done|]. done.
  - exists body, s. split_and!; [done | done | done | |].
    + intros Hlen. rewrite take_ge by done. split; [done|]. by exists b.
    + intros Hlen. rewrite length_take. lia.
Qed.

Lemma corsHeaders_names origin name :
  name ∉ response_header_names → corsHeaders origin !! name = None.
Proof.
  unfold response_header_names. rewrite !not_elem_of_cons.
  intros (_ & Ho & Hm & Hh & Ha & _). unfold corsHeaders.
  rewrite !lookup_insert_ne, lookup_singleton_ne;
    [done | exact (not_eq_sym Ha) | exact (not_eq_sym Hh)
     | exact (not_eq_sym Hm) | exact (not_eq_sym Ho)].
Qed.

(** X9. The [Access-Control-Allow-Origin] header of every response is
    an origin of the allow-list, never an origin the request merely
    claims; and a response carries no header beyond [Content-Type] and
    the four CORS headers. *)
Theorem allow_origin_is_allow_listed now request env σ r :
  completes (fetch now request env σ) = Normal r →
  (∃ allowed, headers r !! ACAO = Some allowed ∧ allowed ∈ ALLOWED_ORIGINS)
  ∧ (∀ name, name ∉ response_header_names → headers r !! name = None).
Proof.
  intros Hr.
  assert (Hcors : ∃ allowed, corsHeaders (origin_of request) !! ACAO = Some allowed
                             ∧ allowed ∈ ALLOWED_ORIGINS).
  { rewrite corsHeaders_ACAO. eexists. split; [done|].
    case_bool_decide; [done|]. apply list_elem_of_here. }
  destruct (decide (method request = js "OPTIONS")) as [Hopt|Hopt].
  - rewrite fetch_preflight in Hr by done. injection Hr as <-. simpl.
    split; [done|]. apply corsHeaders_names.
  - destruct (fetch_returns_json _ _ _ _ _ _ _ _ Hopt Hr) as (payload & code & -> & _).
    simpl. split.
    + destruct Hcors as (allowed & Hl & Hin). exists allowed. split; [|done].
      by apply lookup_union_Some_l.
    + intros name Hname. apply lookup_union_None. split.
      * by apply corsHeaders_names.
      * apply lookup_singleton_ne. intros <-. apply Hname. apply list_elem_of_here.
Qed.

(** *** Requests in sequence *)

Local Abbreviation serve := (serve JSON_parse JSON_stringify global_fetch).

Lemma limiter_calls_cons now request reqs :
  limiter_calls ((now, request) :: reqs)
  = if routed request then (now, ip_of request) :: limiter_calls reqs
    else limiter_calls reqs.
Proof. unfold limiter_calls. simpl. by destruct (routed request). Qed.

Lemma serve_store env reqs : ∀ σ,
  (serve env reqs σ).2 = (calls (limiter_calls reqs) σ).2.
Proof.
  induction reqs as [|[now request] rest IH]; intros σ; simpl; [done|].
  rewrite limiter_calls_cons, fetch_store_after.
  specialize (IH (if routed request
                  then (isRateLimited now (ip_of request) σ).2 else σ)).
  destruct (serve env rest _) as [os σ']. simpl in *. rewrite IH.
  destruct (routed request); [|done]. simpl.
  destruct (isRateLimited now (ip_of request) σ) as [d σ1]. simpl.
  by destruct (calls (limiter_calls rest) σ1).
Qed.

Lemma serve_lookup env reqs : ∀ σ i now request,
  reqs !! i = Some (now, request) →
  (serve env reqs σ).1 !! i
  = Some (fetch now request env (calls (limiter_calls (take i reqs)) σ).2).
Proof.
  induction reqs as [|[now0 request0] rest IH]; intros σ i now request Hi; [done|].
  simpl. pose proof (fetch_store_after now0 request0 env σ) as Hst.
  destruct (serve env rest (store_after (fetch now0 request0 env σ))) as [os σ'] eqn:Hs.
  destruct i as [|i]; simpl in *.
  - by injection Hi as <- <-.
  - rewrite limiter_calls_cons.
    specialize (IH (store_after (fetch now0 request0 env σ)) i now request Hi).
    rewrite Hs in IH. simpl in IH. rewrite IH. do 2 f_equal. rewrite Hst.
    destruct (routed request0); [|done]. simpl.
    destruct (isRateLimited now0 (ip_of request0) σ) as [d σ1]. simpl.
    by destruct (calls (limiter_calls (take i rest)) σ1).
Qed.

Lemma serve_length env reqs : ∀ σ, length (serve env reqs σ).1 = length reqs.
Proof.
  induction reqs as [|[now request] rest IH]; intros σ; simpl; [done|].
  specialize (IH (store_after (fetch now request env σ))).
  destruct (serve env rest _) as [os σ']. simpl in *. by rewrite IH.
Qed.

(** X10. Handling requests one after the other runs the rate limiter
    on exactly the POSTs to /api/query, in their order: each request is
    handled on the table that the limiter calls of the earlier such
    requests have left, and the table at the end is the one those
    calls leave.  Preflights, 404s and everything that happens after
    the limiter in a request leave no trace in it. *)
Theorem serving_runs_the_limiter env reqs σ :
  (serve env reqs σ).2 = (calls (limiter_calls reqs) σ).2
  ∧ length (serve env reqs σ).1 = length reqs
  ∧ ∀ i now request,
      reqs !! i = Some (now, request) →
      (serve env reqs σ).1 !! i
      = Some (fetch now request env (calls (limiter_calls (take i reqs)) σ).2).
Proof.
  split; [apply serve_store|]. split; [apply serve_length | apply serve_lookup].
Qed.

Lemma limiter_calls_same_key ip reqs :
  Forall (λ nr, routed nr.2 = true ∧ ip_of nr.2 = ip) reqs →
  limiter_calls reqs = (λ nr, (nr.1, ip)) <$> reqs
  ∧ times_of ip (limiter_calls reqs) = reqs.*1.
Proof.
  induction 1 as [|[now request] rest [Hr Hip] _ [IH1 IH2]]; [done|].
  simpl in Hr, Hip. rewrite limiter_calls_cons, Hr, Hip. split.
  - rewrite IH1. reflexivity.
  - rewrite times_of_cons, bool_decide_true by done. rewrite IH2. reflexivity.
Qed.

(** X11. When one client key sends POSTs to /api/query, the first at a
    time [t0] at which it has no record or a window start more than
    60,000 ms old and the others up to 60,000 ms after [t0], the first
    twenty are not answered 429 and every later one is, whatever their
    origins and bodies. *)
Theorem twenty_first_request_is_refused env ip t0 request0 rest σ :
  store_wf σ →
  opens_window σ ip t0 →
  routed request0 = true → ip_of request0 = ip →
  Forall (λ nr, (routed nr.2 = true ∧ ip_of nr.2 = ip) ∧ nr.1 - t0 ≤ 60000) rest →
  ∀ i o,
    (serve env ((t0, request0) :: rest) σ).1 !! i = Some o →
    (∃ r, completes o = Normal r ∧ status r = 429) ↔ (20 ≤ i)%nat.
Proof.
  intros Hwf Hopen Hr0 Hip0 Hrest i o Ho.
  apply Forall_and in Hrest as [Hkey Htime].
  set (reqs := (t0, request0) :: rest) in *.
  assert (Hlen : (i < length reqs)%nat).
  { apply lookup_lt_Some in Ho.
    pose proof (serve_length env reqs σ). lia. }
  destruct (lookup_lt_is_Some_2 reqs i Hlen) as [[now request] Hi].
  rewrite (serve_lookup env reqs σ i now request Hi) in Ho. injection Ho as <-.
  rewrite fetch_429.
  assert (Hthis : routed request = true ∧ ip_of request = ip ∧ now - t0 ≤ 60000).
  { destruct i as [|i]; simpl in Hi.
    - injection Hi as <- <-. split_and!; [done | done | lia].
    - rewrite Forall_lookup in Hkey, Htime.
      destruct (Hkey _ _ Hi). specialize (Htime _ _ Hi). done. }
  destruct Hthis as (Hr & Hip & Hnow). rewrite Hr, Hip.
  (* the record of the key when the request arrives *)
  set (σi := (calls (limiter_calls (take i reqs)) σ).2).
  assert (Hwfi : store_wf σi) by (apply calls_wf; done).
  assert (Hwin : ∀ limited, limited = (isRateLimited now ip σi).1 →
                            limited = true ↔ (20 ≤ i)%nat).
  { intros limited ->.
    pose proof (isRateLimited_tick now ip σi Hwfi) as Hstep.
    destruct (isRateLimited now ip σi) as [d σ']. destruct Hstep as (-> & _).
    cbn [fst].
    destruct i as [|i].
    - change σi with σ. rewrite (tick_opens now (window_of σ ip)).
      + simpl. split; [done | lia].
      + simpl in Hi. injection Hi as <- <-. exact Hopen.
    - assert (window_of σi ip = Some {| count := Z.of_nat (S i); start := t0 |}) as ->.
      { unfold σi, reqs. simpl. rewrite limiter_calls_cons, Hr0, Hip0. simpl.
        pose proof (isRateLimited_tick t0 ip σ Hwf) as Hstep0.
        destruct (isRateLimited t0 ip σ) as [d0 σ1].
        destruct Hstep0 as (_ & Hself & _ & _ & Hwf1).
        rewrite (tick_opens t0 (window_of σ ip) Hopen) in Hself.
        assert (Hkey' : Forall (λ nr, routed nr.2 = true ∧ ip_of nr.2 = ip)
                          (take i rest)) by by apply Forall_take.
        destruct (limiter_calls_same_key ip _ Hkey') as [_ Htimes].
        destruct (decisions_in_window ip t0 (limiter_calls (take i rest)) σ1 1
                    Hwf1 Hself) as [_ Hw].
        { rewrite Htimes. apply Forall_fmap. apply Forall_take.
          eapply Forall_impl; [exact Htime|]. by intros [t r]. }
        destruct (calls (limiter_calls (take i rest)) σ1) as [ds σ2]. simpl in *.
        rewrite Hw, Htimes, length_fmap, length_take.
        simpl in Hlen. do 2 f_equal. lia. }
      rewrite tick_same_window by done. simpl. rewrite Z.gtb_ltb, Z.ltb_lt. lia. }
  split.
  - intros [_ Hl]. by apply (Hwin _ eq_refl).
  - intros Hi20. split; [done|]. by apply (Hwin _ eq_refl).
Qed.

(** *** The answers as a whole *)

(** X12. Every response of the handler has one of the six statuses
    204, 404, 429, 400, 502 and 200; it has no body exactly when its
    status is 204, and its status is 204 exactly when the request was a
    preflight. *)
Theorem six_statuses now request env σ r :
  completes (fetch now request env σ) = Normal r →
  status r ∈ [204; 404; 429; 400; 502; 200]
  ∧ (body r = None ↔ status r = 204)
  ∧ (status r = 204 ↔ method request = js "OPTIONS").
Proof.
  intros Hr.
  destruct (decide (method request = js "OPTIONS")) as [Hopt|Hopt].
  { rewrite fetch_preflight in Hr by done. injection Hr as <-. simpl.
    split; [in_list | done]. }
  destruct (routed request) eqn:Hrt.
  2:{ apply routed_false in Hrt. rewrite fetch_not_found in Hr by done.
      injection Hr as <-. simpl. split; [in_list | done]. }
  pose proof (fetch_routed_status _ _ _ _ _ Hrt Hr) as Hin.
  destruct (fetch_returns_json _ _ _ _ _ _ _ _ Hopt Hr) as (payload & code & -> & _).
  simpl in *. split; [by do 2 apply list_elem_of_further|]. split.
  - split; [done|]. intros ->. exfalso.
    repeat (apply elem_of_cons in Hin as [Hin|Hin]; [done|]).
    by apply elem_of_nil in Hin.
  - split; [|done]. intros ->. exfalso.
    repeat (apply elem_of_cons in Hin as [Hin|Hin]; [done|]).
    by apply elem_of_nil in Hin.
Qed.

(** X13. The handler lets an exception escape in two cases only, both
    after the request passed the router, the rate limiter and the
    validation: the upstream [fetch] rejects, or the upstream service
    answers 2xx with a body that is not JSON (the [await
    geminiRes.json()] outside the [try] blocks).  Every other request is
    answered with a response. *)
Theorem exceptions_escape_past_validation_only now request env σ e :
  completes (fetch now request env σ) = Throw e ↔
  method request = js "POST"
  ∧ url_pathname request = js "/api/query"
  ∧ (isRateLimited now (ip_of request) σ).1 = false
  ∧ ∃ query,
      parse_body (body_text request) = Normal query
      ∧ match global_fetch (gemini_call env query) with
        | None => e = NetworkFailure
        | Some geminiRes =>
            ok geminiRes = true
            ∧ JSON_parse (upstream_text geminiRes) = None
            ∧ e = SyntaxError
        end.
Proof. apply fetch_throws. Qed.

End Stages.

(** ** The table of the rate limiter *)

Section Table.

Implicit Types (σ : store) (ip : list N) (now : Z).

(** The record of a key after a sequence of calls. *)
Lemma calls_window ip trace : ∀ σ,
  store_wf σ →
  window_of (calls trace σ).2 ip = ticks (times_of ip trace) (window_of σ ip).
Proof.
  induction trace as [|[now ip'] rest IH]; intros σ Hwf; simpl; [done|].
  rewrite times_of_cons.
  pose proof (isRateLimited_tick now ip' σ Hwf) as Hstep.
  destruct (isRateLimited now ip' σ) as [d σ1].
  destruct Hstep as (_ & Hself & Hframe & _ & Hwf1).
  specialize (IH σ1 Hwf1). destruct (calls rest σ1) as [ds σ2]. simpl in *.
  rewrite IH. case_bool_decide as Heq.
  - subst ip'. simpl. by rewrite Hself.
  - rewrite Hframe by congruence. done.
Qed.

(** X14. The table is a family of independent counters: after any
    sequence of calls, by any clients in any order, the record of a
    key is what the calls of that key alone make of its earlier
    record. *)
Theorem table_is_per_key ip trace σ :
  store_wf σ →
  window_of (calls trace σ).2 ip = ticks (times_of ip trace) (window_of σ ip).
Proof. apply calls_window. Qed.

Lemma ticks_snoc ts t w : ticks (ts ++ [t]) w = Some (tick t (ticks ts w)).
Proof. unfold ticks. by rewrite foldl_app. Qed.

(** The records a client's own calls can produce from no record. *)
Lemma ticks_invariant ts e :
  ticks ts None = Some e →
  1 ≤ count e ≤ Z.of_nat (length ts) ∧ start e ∈ ts.
Proof.
  revert e. induction ts as [|t ts IH] using rev_ind; intros e; [done|].
  rewrite ticks_snoc. intros [= <-]. rewrite length_app. simpl.
  unfold tick. destruct (ticks ts None) as [e0|] eqn:He0; simpl.
  - destruct (IH e0 eq_refl) as [Hc Hs].
    destruct (t - start e0 >? 60000); simpl.
    + split; [lia|]. apply elem_of_app. right. apply list_elem_of_here.
    + split; [lia|]. apply elem_of_app. by left.
  - assert (ts = []) as ->.
    { destruct ts as [|t' ts] using rev_ind; [done|]. by rewrite ticks_snoc in He0. }
    replace (t - t >? 60000) with false
      by (symmetry; rewrite Z.gtb_ltb; apply Z.ltb_ge; lia).
    simpl. split; [lia|]. apply list_elem_of_here.
Qed.

(** X15. On the table of the worker, the record of a key always counts
    at least one call and at most as many as the key has made, and its
    window start is the time of one of the key's own calls. *)
Theorem window_record_invariant trace ip e :
  window_of (calls trace empty_store).2 ip = Some e →
  1 ≤ count e ≤ Z.of_nat (length (times_of ip trace))
  ∧ start e ∈ times_of ip trace.
Proof.
  rewrite (calls_window ip trace empty_store store_wf_empty).
  apply ticks_invariant.
Qed.

Lemma isRateLimited_sizes now ip σ :
  store_wf σ →
  length (heap σ) = size (rateLimitMap σ) →
  length (heap (isRateLimited now ip σ).2) = size (rateLimitMap (isRateLimited now ip σ).2).
Proof.
  intros Hwf Hsz. unfold isRateLimited.
  destruct (rateLimitMap σ !! ip) as [ref|] eqn:Hip; simpl.
  - rewrite length_insert. rewrite (insert_id _ _ _ Hip).
    destruct (_ >? _); [by rewrite length_insert | done].
  - rewrite length_insert. rewrite map_size_insert_None by done.
    destruct (_ >? _); rewrite ?length_insert, length_app; simpl; lia.
Qed.

(** X16. Nothing is ever removed from the table: after any sequence of
    calls it holds exactly the keys it held before and the keys that
    called; on the table of the worker there is one entry object per
    key that ever called. *)
Theorem table_only_grows trace :
  (∀ σ, store_wf σ →
        dom (rateLimitMap (calls trace σ).2)
        = dom (rateLimitMap σ) ∪ list_to_set (trace.*2))
  ∧ dom (rateLimitMap (calls trace empty_store).2) = list_to_set (trace.*2)
  ∧ length (heap (calls trace empty_store).2)
    = size (rateLimitMap (calls trace empty_store).2).
Proof.
  assert (Hdom : ∀ σ, store_wf σ →
                      dom (rateLimitMap (calls trace σ).2)
                      = dom (rateLimitMap σ) ∪ list_to_set (trace.*2)).
  { induction trace as [|[now ip] rest IH]; intros σ Hwf; simpl.
    { by rewrite (right_id_L ∅ (∪)). }
    pose proof (isRateLimited_tick now ip σ Hwf) as Hstep.
    destruct (isRateLimited now ip σ) as [d σ1].
    destruct Hstep as (_ & _ & _ & Hd & Hwf1).
    specialize (IH σ1 Hwf1). destruct (calls rest σ1) as [ds σ2]. simpl in *.
    rewrite IH, Hd. rewrite (comm_L (∪) {[ ip ]}). by rewrite <- (assoc_L (∪)). }
  split; [exact Hdom|]. split.
  - rewrite (Hdom empty_store store_wf_empty). simpl.
    by rewrite dom_empty_L, (left_id_L ∅ (∪)).
  - clear Hdom.
    assert (Hsz : ∀ σ, store_wf σ → length (heap σ) = size (rateLimitMap σ) →
                       length (heap (calls trace σ).2)
                       = size (rateLimitMap (calls trace σ).2)).
    { induction trace as [|[now ip] rest IH]; intros σ Hwf Hs; simpl; [done|].
      pose proof (isRateLimited_wf now ip σ Hwf) as Hwf1.
      pose proof (isRateLimited_sizes now ip σ Hwf Hs) as Hs1.
      destruct (isRateLimited now ip σ) as [d σ1].
      specialize (IH σ1 Hwf1 Hs1). by destruct (calls rest σ1). }
    apply Hsz; [apply store_wf_empty | done].
Qed.

End Table.

(** ** What the fence patterns remove *)

Section FencePatterns.

Implicit Types (s t w : list N).

Lemma match_here_literal ic l p : ∀ at0 s,
  RegExp.match_here ic (map RegExp.Chr l ++ p) at0 s
  = match strip_literal ic l s with
    | Some rest => RegExp.match_here ic p (match l with [] => at0 | _ => false end) rest
    | None => None
    end.
Proof.
  induction l as [|c l IH]; intros at0 s; [done|].
  destruct s as [|x s]; [done|]. cbn [map app RegExp.match_here strip_literal].
  destruct (RegExp.same_char ic c x); [|done].
  rewrite IH. destruct (strip_literal ic l s); [|done]. by destruct l.
Qed.

Lemma strip_literal_Some l : ∀ s rest,
  strip_literal true l s = Some rest →
  ∃ m, s = m ++ rest ∧ map RegExp.canonicalize m = map RegExp.canonicalize l.
Proof.
  induction l as [|c l IH]; intros s rest; simpl.
  - intros [= <-]. by exists [].
  - destruct s as [|x s]; [done|]. unfold RegExp.same_char.
    destruct (N.eqb_spec (RegExp.canonicalize c) (RegExp.canonicalize x)) as [Heq|];
      [|done].
    intros (m & -> & Hm)%IH. exists (x :: m). simpl. by rewrite Hm, Heq.
Qed.

(** An anchored pattern that ends in [\s*]: the literal goes, and the
    whitespace after it; a text that does not start with the literal
    stays. *)
Lemma replace_anchored_literal r l s :
  RegExp.source r = RegExp.Bol :: map RegExp.Chr l ++ [RegExp.StarWs] →
  l ≠ [] →
  RegExp.replace_empty r s
  = match strip_literal (RegExp.ignoreCase r) l s with
    | Some rest => trimStart rest
    | None => s
    end.
Proof.
  intros Hr Hl.
  destruct (strip_literal (RegExp.ignoreCase r) l s) as [rest|] eqn:Hs.
  - apply (replace_anchored_hit _ _ _ _ Hr). rewrite match_here_literal, Hs.
    destruct l; [done|]. exact (star_ws_greedy (RegExp.ignoreCase r) false rest).
  - apply (replace_anchored_miss _ _ _ Hr). by rewrite match_here_literal, Hs.
Qed.

Lemma fence_open_total s :
  RegExp.replace_empty re_fence_open s
  = match strip_literal true fence s with
    | Some rest => trimStart rest
    | None => s
    end.
Proof. by apply (replace_anchored_literal re_fence_open [96; 96; 96]%N). Qed.

Lemma fence_json_total s :
  RegExp.replace_empty re_fence_json s
  = match strip_literal true (fence ++ js "json") s with
    | Some rest => trimStart rest
    | None => s
    end.
Proof.
  by apply (replace_anchored_literal re_fence_json
              [96; 96; 96; 106; 115; 111; 110]%N).
Qed.

Lemma canonical_fence m :
  map RegExp.canonicalize m = map RegExp.canonicalize fence → m = fence.
Proof.
  destruct m as [|a [|b [|c [|? ?]]]]; try done.
  intros [= Ha%canonical_backtick Hb%canonical_backtick Hc%canonical_backtick].
  by subst.
Qed.

(** X17. The two opening patterns, as string operations.  The pattern
    [/^```\s*/i] removes three leading backticks and the whitespace
    after them, and leaves alone a text that does not start with three
    backticks.  The pattern [/^```json\s*/i] removes three leading
    backticks, the letters [json] in any case and the whitespace after
    them, and leaves alone every other text: a fence with another
    language tag is not its business. *)
Theorem opening_patterns :
  (∀ s, RegExp.replace_empty re_fence_open (fence ++ s) = trimStart s)
  ∧ (∀ s, ¬ fence `prefix_of` s → RegExp.replace_empty re_fence_open s = s)
  ∧ (∀ tag s, json_tag tag →
              RegExp.replace_empty re_fence_json (fence ++ tag ++ s) = trimStart s)
  ∧ (∀ s, (∀ tag rest, json_tag tag → s ≠ fence ++ tag ++ rest) →
          RegExp.replace_empty re_fence_json s = s).
Proof.
  split; [exact fence_open_hit|]. split; [|split; [exact fence_json_hit|]].
  - intros s Hs. rewrite fence_open_total.
    destruct (strip_literal true fence s) as [rest|] eqn:Hstrip; [|done].
    destruct Hs. apply strip_literal_Some in Hstrip as (m & -> & ->%canonical_fence).
    by exists rest.
  - intros s Hs. rewrite fence_json_total.
    destruct (strip_literal true (fence ++ js "json") s) as [rest|] eqn:Hstrip; [|done].
    apply strip_literal_Some in Hstrip as (m & -> & Hm).
    destruct m as [|a [|b [|c tag]]]; try done.
    injection Hm as Ha%canonical_backtick Hb%canonical_backtick Hc%canonical_backtick
                    Htag.
    subst. destruct (Hs tag rest); [exact Htag | done].
Qed.

Lemma exec_from_close_shape s : ∀ at0 pre rest,
  RegExp.exec_from re_fence_close at0 s = Some (pre, rest) →
  rest = [] ∧ ∃ w, all_ws w ∧ s = pre ++ w ++ fence.
Proof.
  induction s as [|c s IH]; intros at0 pre rest; rewrite exec_from_close.
  - by case_bool_decide.
  - case_bool_decide as Hf.
    + intros [= <- <-]. split; [done|].
      destruct (trimStart_split (c :: s)) as (w & Hw & Hsplit).
      exists w. by rewrite Hf in Hsplit.
    + destruct (RegExp.exec_from re_fence_close false s) as [[pre' rest']|] eqn:He;
        [|done].
      intros [= <- <-]. destruct (IH _ _ _ He) as (-> & w & Hw & ->).
      split; [done|]. by exists w.
Qed.

Lemma fence_close_unfenced s :
  ¬ fence `suffix_of` s → RegExp.replace_empty re_fence_close s = s.
Proof.
  intros Hs. unfold RegExp.replace_empty.
  destruct (RegExp.exec_from re_fence_close true s) as [[pre rest]|] eqn:He; [|done].
  destruct (exec_from_close_shape _ _ _ _ He) as (-> & w & _ & ->).
  destruct Hs. exists (pre ++ w). by rewrite <- app_assoc.
Qed.

Lemma fence_close_fenced s :
  RegExp.replace_empty re_fence_close (s ++ fence) = trimEnd s.
Proof.
  destruct (trimEnd_split s) as (w & Hw & Hsplit).
  rewrite Hsplit at 1. rewrite <- app_assoc.
  apply fence_close_hit; [done|].
  destruct (last (trimEnd s)) as [b|] eqn:Hb.
  - right. exists b. split; [done|]. by eapply trimEnd_last_not_ws.
  - left. by apply last_None.
Qed.

(** X18. The closing pattern [/\s*```$/], as a string operation: when
    the text ends with three backticks, these go and so does the
    whitespace before them, and only they (backticks further in stay);
    a text that does not end with three backticks is left alone. *)
Theorem closing_pattern :
  (∀ s, RegExp.replace_empty re_fence_close (s ++ fence) = trimEnd s)
  ∧ (∀ s, ¬ fence `suffix_of` s → RegExp.replace_empty re_fence_close s = s).
Proof. split; [exact fence_close_fenced | exact fence_close_unfenced]. Qed.

Lemma trim_split s : ∃ w1 w2, s = w1 ++ trim s ++ w2.
Proof.
  destruct (trimStart_split s) as (w1 & _ & H1).
  destruct (trimEnd_split (trimStart s)) as (w2 & _ & H2).
  exists w1, w2. unfold trim. by rewrite <- H2.
Qed.

(** X19. Stripping fences only cuts: the cleaned text is one
    contiguous piece of the raw text, nothing is inserted, replaced or
    reordered, so it is never longer; and when it is not empty it
    starts and ends with a character that is not whitespace. *)
Theorem strip_fences_only_cuts s :
  (∃ pre post, s = pre ++ strip_fences s ++ post)
  ∧ (length (strip_fences s) ≤ length s)%nat
  ∧ (strip_fences s ≠ [] →
     ∃ a b, head (strip_fences s) = Some a ∧ last (strip_fences s) = Some b
            ∧ is_ws a = false ∧ is_ws b = false).
Proof.
  assert (Hcut : ∃ pre post, s = pre ++ strip_fences s ++ post).
  { unfold strip_fences.
    set (s1 := RegExp.replace_empty re_fence_json s).
    set (s2 := RegExp.replace_empty re_fence_open s1).
    set (s3 := RegExp.replace_empty re_fence_close s2).
    assert (∃ a, s = a ++ s1) as [a Ha].
    { unfold s1. rewrite fence_json_total.
      destruct (strip_literal true (fence ++ js "json") s) as [rest|] eqn:Hstrip.
      - apply strip_literal_Some in Hstrip as (m & -> & _).
        destruct (trimStart_split rest) as (w & _ & Hw).
        exists (m ++ w). by rewrite <- app_assoc, <- Hw.
      - by exists []. }
    assert (∃ b, s1 = b ++ s2) as [b Hb].
    { unfold s2. rewrite fence_open_total.
      destruct (strip_literal true fence s1) as [rest|] eqn:Hstrip.
      - apply strip_literal_Some in Hstrip as (m & -> & _).
        destruct (trimStart_split rest) as (w & _ & Hw).
        exists (m ++ w). by rewrite <- app_assoc, <- Hw.
      - by exists []. }
    assert (∃ c, s2 = s3 ++ c) as [c Hc].
    { unfold s3, RegExp.replace_empty.
      destruct (RegExp.exec_from re_fence_close true s2) as [[pre rest]|] eqn:He.
      - destruct (exec_from_close_shape _ _ _ _ He) as (-> & w & _ & Hs2).
        exists (w ++ fence). by rewrite app_nil_r.
      - exists []. by rewrite app_nil_r. }
    destruct (trim_split s3) as (w1 & w2 & Hs3).
    exists (a ++ b ++ w1), (w2 ++ c).
    rewrite Ha, Hb, Hc. rewrite Hs3 at 1. by rewrite <- !app_assoc. }
  split; [exact Hcut|]. split.
  - destruct Hcut as (pre & post & Hs). rewrite Hs at 2. rewrite !length_app. lia.
  - apply trim_ends.
Qed.

End FencePatterns.

(** ** The further properties at work *)

Lemma not_found_exactly_off_route_witness :
  fetch Mini.parse Mini.stringify upstream_fine 0 example_get example_env spent_store
  = {| completes :=
         Normal {| status := 404;
                   headers := corsHeaders (origin_of example_get)
                              ∪ {[ js "Content-Type" := js "application/json" ]};
                   body := Some (Mini.stringify (VObj [ (js "error",
                                                         VStr (js "Not found")) ])) |};
       store_after := spent_store; console_error := []; upstream_calls := [] |}.
Proof.
  apply (proj1 (not_found_exactly_off_route Mini.parse Mini.stringify upstream_fine
                  0 example_get example_env spent_store));
    [vm_compute; discriminate | by_computation].
Defined.

(** The 21st call of [client_a] within the window. *)
Lemma too_many_requests_exactly_when_limited_witness :
  let request := example_post (Some site_origin) question in
  fetch Mini.parse Mini.stringify upstream_fine 0 request example_env spent_store
  = {| completes :=
         Normal {| status := 429;
                   headers := corsHeaders (origin_of request)
                              ∪ {[ js "Content-Type" := js "application/json" ]};
                   body := Some (Mini.stringify
                                   (VObj [ (js "error",
                           VStr (js "Demasiados pedidos. Tente novamente em 1 minuto.")) ])) |};
       store_after := (isRateLimited 0 (ip_of request) spent_store).2;
       console_error := []; upstream_calls := [] |}.
Proof.
  intros request.
  apply (proj1 (too_many_requests_exactly_when_limited Mini.parse Mini.stringify
                  upstream_fine 0 request example_env spent_store));
    by_computation.
Defined.

Lemma success_comes_from_upstream_witness :
  let request := example_post (Some site_origin) question in
  routed request = true
  ∧ (isRateLimited 0 (ip_of request) empty_store).1 = false
  ∧ ∃ query geminiRes data rawText parsed,
      parse_body Mini.parse (body_text request) = Normal query
      ∧ upstream_fine (gemini_call Mini.stringify example_env query) = Some geminiRes
      ∧ ok geminiRes = true
      ∧ Mini.parse (upstream_text geminiRes) = Some data
      ∧ raw_text data = Normal rawText
      ∧ Mini.parse (strip_fences rawText) = Some parsed
      ∧ body (json Mini.stringify (VObj [ (js "a", VNum 1) ]) 200 site_origin)
        = Some (Mini.stringify parsed)
      ∧ upstream_calls (run upstream_fine request)
        = [ gemini_call Mini.stringify example_env query ].
Proof.
  intros request.
  apply (success_comes_from_upstream Mini.parse Mini.stringify upstream_fine
           0 request example_env empty_store
           (json Mini.stringify (VObj [ (js "a", VNum 1) ]) 200 site_origin));
    by_computation.
Defined.

(** The upstream service answers 2xx with the empty object. *)
Lemma missing_candidate_text_is_502_witness :
  let upstream := upstream_answers 200 (js "{}") in
  let request := example_post (Some site_origin) question in
  let query := js "Qual é o orçamento do MINED para 2026?" in
  run upstream request
  = {| completes :=
         Normal {| status := 502;
                   headers := corsHeaders (origin_of request)
                              ∪ {[ js "Content-Type" := js "application/json" ]};
                   body := Some (Mini.stringify
                                   (VObj [ (js "error",
                                           VStr (js "Resposta inesperada do servidor.")) ])) |};
       store_after := first_call_store; console_error := [];
       upstream_calls := [ gemini_call Mini.stringify example_env query ] |}.
Proof.
  intros upstream request query.
  destruct (missing_candidate_text_is_502 Mini.parse Mini.stringify upstream)
    as (_ & _ & _ & _ & _ & H502).
  apply (H502 0 request example_env empty_store first_call_store query
           {| upstream_status := 200; upstream_text := js "{}" |} (VObj []) TypeError);
    by_computation.
Defined.

Lemma validated_query_shape_witness :
  let query := repeat1 120 500 in
  query ≠ []
  ∧ (length query ≤ 500)%nat
  ∧ (∃ c, head query = Some c ∧ is_ws c = false)
  ∧ ∃ body s,
      Mini.parse long_question = Some body
      ∧ Js.get body (js "query") = Normal (VStr s)
      ∧ query = slice0 500 (trim s)
      ∧ ((length (trim s) ≤ 500)%nat →
         query = trim s ∧ ∃ c, last query = Some c ∧ is_ws c = false)
      ∧ ((500 < length (trim s))%nat → length query = 500%nat).
Proof.
  intros query.
  apply (validated_query_shape Mini.parse long_question query). by_computation.
Defined.

(** A question that claims a foreign origin. *)
Lemma allow_origin_is_allow_listed_witness :
  let request := example_post (Some other_origin) question in
  let r := json Mini.stringify (VObj [ (js "a", VNum 1) ]) 200 other_origin in
  (∃ allowed, headers r !! ACAO = Some allowed ∧ allowed ∈ ALLOWED_ORIGINS)
  ∧ (∀ name, name ∉ response_header_names → headers r !! name = None).
Proof.
  intros request r.
  apply (allow_origin_is_allow_listed Mini.parse Mini.stringify upstream_fine
           0 request example_env empty_store r).
  by_computation.
Defined.

Lemma table_is_per_key_witness :
  window_of (calls busy_minute empty_store).2 client_a
  = ticks (times_of client_a busy_minute) (window_of empty_store client_a).
Proof. apply (table_is_per_key client_a busy_minute empty_store store_wf_empty). Defined.

Lemma window_record_invariant_witness :
  let e := {| count := 21; start := 2000 |} in
  1 ≤ count e ≤ Z.of_nat (length (times_of client_a busy_minute))
  ∧ start e ∈ times_of client_a busy_minute.
Proof.
  intros e. apply (window_record_invariant busy_minute client_a e). by_computation.
Defined.

Lemma table_only_grows_witness :
  dom (rateLimitMap (calls busy_minute (isRateLimited 0 client_a empty_store).2).2)
  = dom (rateLimitMap (isRateLimited 0 client_a empty_store).2)
    ∪ list_to_set (busy_minute.*2).
Proof.
  apply (proj1 (table_only_grows busy_minute)).
  apply isRateLimited_wf, store_wf_empty.
Defined.

(** A question, a preflight and a stray GET, one after the other: only
    the question reaches the limiter. *)
Lemma serving_runs_the_limiter_witness :
  let reqs := [ (0, example_post None question); (1, example_get);
                (2, example_post None question) ] in
  limiter_calls reqs = [ (0, client_a); (2, client_a) ]
  ∧ (serve Mini.parse Mini.stringify upstream_fine example_env reqs empty_store).2
    = (calls (limiter_calls reqs) empty_store).2
  ∧ (serve Mini.parse Mini.stringify upstream_fine example_env reqs empty_store).1 !! 2%nat
    = Some (fetch Mini.parse Mini.stringify upstream_fine 2 (example_post None question)
              example_env (calls (limiter_calls (take 2 reqs)) empty_store).2).
Proof.
  intros reqs. split; [by_computation|].
  destruct (serving_runs_the_limiter Mini.parse Mini.stringify upstream_fine
              example_env reqs empty_store) as (Hstore & _ & Hlookup).
  split; [exact Hstore|]. apply Hlookup. reflexivity.
Defined.

(** Clients without the connecting-IP header share the key [unknown]:
    of 25 such requests in one minute, the last five are refused. *)
Lemma twenty_first_request_is_refused_witness :
  Forall2 (λ (i : nat) o,
             (∃ r, completes o = Normal r ∧ status r = 429) ↔ (20 ≤ i)%nat)
    (seq 0 25)
    (serve Mini.parse Mini.stringify upstream_fine example_env
       ((0, headerless_post question) :: replicate 24 (5, headerless_post (js "")))
       empty_store).1.
Proof.
  apply Forall2_same_length_lookup_2; [by_computation|].
  intros i j o [-> _]%lookup_seq.
  apply (twenty_first_request_is_refused Mini.parse Mini.stringify upstream_fine
           example_env (js "unknown") 0 (headerless_post question)
           (replicate 24 (5, headerless_post (js ""))) empty_store).
  - apply store_wf_empty.
  - exact I.
  - by_computation.
  - by_computation.
  - apply Forall_replicate. split; [split; by_computation | simpl; lia].
Defined.

Lemma opening_patterns_witness :
  RegExp.replace_empty re_fence_open (js "{}") = js "{}"
  ∧ RegExp.replace_empty re_fence_json (fence ++ js "JSON" ++ js "  {}") = trimStart (js "  {}")
  ∧ RegExp.replace_empty re_fence_json (fence ++ js "javascript") = fence ++ js "javascript".
Proof.
  destruct opening_patterns as (_ & Hopen & Hjson & Hother).
  split; [|split].
  - apply Hopen. intros [k Hk]. vm_compute in Hk. discriminate.
  - apply Hjson. reflexivity.
  - apply Hother. intros tag rest Htag Heq.
    destruct tag as [|a [|b [|c [|d [|? ?]]]]]; try discriminate Htag.
    vm_compute in Heq. injection Heq as Ha Hb Hc Hd _. subst a b c d.
    vm_compute in Htag. discriminate.
Defined.

Lemma closing_pattern_witness :
  RegExp.replace_empty re_fence_close (js "{}") = js "{}".
Proof.
  apply (proj2 closing_pattern). intros [k Hk].
  destruct k as [|? [|? [|? ?]]]; vm_compute in Hk; discriminate.
Defined.

Lemma strip_fences_only_cuts_witness :
  ∃ a b, head (strip_fences (trim example_reply)) = Some a
         ∧ last (strip_fences (trim example_reply)) = Some b
         ∧ is_ws a = false ∧ is_ws b = false.
Proof.
  apply (strip_fences_only_cuts (trim example_reply)). vm_compute. discriminate.
Defined.

(** The upstream service answers 2xx with a page that is not JSON. *)
Lemma exceptions_escape_past_validation_only_witness :
  completes (run (upstream_answers 200 (js "<html>"))
               (example_post (Some site_origin) question))
  = Throw SyntaxError.
Proof.
  apply (exceptions_escape_past_validation_only Mini.parse Mini.stringify
           (upstream_answers 200 (js "<html>"))).
  split; [by_computation|]. split; [by_computation|]. split; [by_computation|].
  exists (js "Qual é o orçamento do MINED para 2026?").
  split; [by_computation|]. vm_compute. by repeat split.
Defined.

(** The answer to a stray GET. *)
Lemma six_statuses_witness :
  let r := json Mini.stringify (VObj [ (js "error",
                                        VStr (js "Not found")) ]) 404 (js "") in
  status r ∈ [204; 404; 429; 400; 502; 200]
  ∧ (body r = None ↔ status r = 204)
  ∧ (status r = 204 ↔ method example_get = js "OPTIONS").
Proof.
  intros r.
  apply (six_statuses Mini.parse Mini.stringify upstream_fine 0 example_get example_env
           empty_store r).
  by_computation.
Defined.
